(** * Phonetic transcription of Czech: the [Transcription] class of
    [transcription.py], embedded as Rocq functions.

    Python strings are sequences of Unicode code points, so a character is a
    code point ([N]) and a string a list of them.  Exceptions are carried by a
    small error monad.  The Unicode property tables that Python's [re] and
    [str] consult ([\w], [\s], [str.casefold]) are an interface ([Unicode]);
    the laws the proofs need from them are a second one ([UnicodeLaws]). *)

From Stdlib Require Import String Ascii Arith NArith Bool List Lia.
Import ListNotations.

(** ** Python strings *)

Definition char := N.
Definition str := list char.

(** Decoding of the UTF-8 bytes of a source literal into code points. *)
Fixpoint utf8 (bs : list N) : str :=
  match bs with
  | [] => []
  | b0 :: r0 =>
      if (b0 <? 128)%N then b0 :: utf8 r0
      else if (b0 <? 224)%N then
        match r0 with
        | b1 :: r1 => ((b0 - 192) * 64 + (b1 - 128))%N :: utf8 r1
        | _ => []
        end
      else if (b0 <? 240)%N then
        match r0 with
        | b1 :: b2 :: r2 =>
            ((b0 - 224) * 4096 + (b1 - 128) * 64 + (b2 - 128))%N :: utf8 r2
        | _ => []
        end
      else
        match r0 with
        | b1 :: b2 :: b3 :: r3 =>
            ((b0 - 240) * 262144 + (b1 - 128) * 4096
             + (b2 - 128) * 64 + (b3 - 128))%N :: utf8 r3
        | _ => []
        end
  end.

Definition ustr (s : string) : str :=
  utf8 (map N_of_ascii (list_ascii_of_string s)).

Definition space : char := 32%N.

(** [c in s] for a one-character [c]. *)
Definition mem (c : char) (s : str) : bool := existsb (N.eqb c) s.

Definition is_empty (s : str) : bool :=
  match s with [] => true | _ => false end.

(** [s and s[0] == " "] *)
Definition starts_with_space (s : str) : bool :=
  match s with c :: _ => (c =? space)%N | [] => false end.

Fixpoint ends_with_space (s : str) : bool :=
  match s with
  | [] => false
  | [c] => (c =? space)%N
  | _ :: s' => ends_with_space s'
  end.

(** ** Exceptions *)

Inductive exn := IndexError | UnboundLocalError | ReError.

Inductive py (A : Type) :=
| Ret (a : A)
| Raise (e : exn).
Arguments Ret {A} a.
Arguments Raise {A} e.

Definition bind {A B : Type} (m : py A) (k : A -> py B) : py B :=
  match m with
  | Ret a => k a
  | Raise e => Raise e
  end.

Notation "x <- m ;; k" := (bind m (fun x => k))
  (at level 61, m at next level, right associativity).

(** [s[i]] *)
Definition index (s : str) (i : nat) : py char :=
  match nth_error s i with
  | Some c => Ret c
  | None => Raise IndexError
  end.

(** Reading a local variable that may not have been assigned yet. *)
Definition load (v : option char) : py char :=
  match v with
  | Some c => Ret c
  | None => Raise UnboundLocalError
  end.

(** ** Translation tables ([str.maketrans], [str.translate]) *)

Definition dict := list (char * char).

(** [d[k] = v]: an existing key keeps its place and takes the new value. *)
Fixpoint dict_set (k v : char) (d : dict) : dict :=
  match d with
  | [] => [(k, v)]
  | (k', v') :: d' =>
      if (k' =? k)%N then (k, v) :: d' else (k', v') :: dict_set k v d'
  end.

Fixpoint dict_get (k : char) (d : dict) : option char :=
  match d with
  | [] => None
  | (k', v') :: d' => if (k' =? k)%N then Some v' else dict_get k d'
  end.

(** [str.maketrans(x, y)] for two strings of equal length: the pairs are
    entered from left to right, so a repeated key ends with its last value. *)
Definition maketrans (x y : str) : dict :=
  fold_left (fun d kv => dict_set (fst kv) (snd kv) d) (combine x y) [].

(** [c.translate(table)] for a one-character [c]. *)
Definition translate (c : char) (table : dict) : char :=
  match dict_get c table with
  | Some v => v
  | None => c
  end.

(** ** The symbol classes of [Transcription] *)

Definition _trigger_devoicing : str := ustr "ptťksšcčxxf".
Definition _devoiced : str := _trigger_devoicing.
Definition _trigger_voicing : str := ustr "bdďgzžʒɮhɣ".
Definition _voiced : str := _trigger_voicing ++ ustr "v".
Definition _devoiced2voiced : dict := maketrans _devoiced _voiced.
Definition _voiced2devoiced : dict := maketrans _voiced _devoiced.

(** ** [_voicing_assim] *)

(** The two local variables of the loop; [previous_phone] is unbound until
    the end of the first iteration. *)
Record locals := Locals { result : str; previous_phone : option char }.

Definition loop_body (st : locals) (char : char) : py locals :=
  let result := result st in
  let char :=
    if starts_with_space result && mem char _voiced
    then translate char _voiced2devoiced else char in
  result <-
    (if is_empty result && mem char _voiced then
       Ret [translate char _voiced2devoiced]
     else if is_empty result then
       Ret [char]
     else
       previous <- load (previous_phone st) ;;
       if mem previous _trigger_devoicing && mem char _voiced then
         Ret (translate char _voiced2devoiced :: result)
       else if mem previous _trigger_voicing && mem char _devoiced then
         Ret (translate char _devoiced2voiced :: result)
       else
         Ret (char :: result)) ;;
  r0 <- index result 0 ;;
  previous <- (if (r0 =? space)%N then index result 1 else index result 0) ;;
  Ret (Locals result (Some previous)).

Definition _voicing_assim (string : str) : py str :=
  st <- fold_left (fun acc char => st <- acc ;; loop_body st char)
          (rev string) (Ret (Locals [] None)) ;;
  Ret (result st).

(** *** A closed form of the scan, used to state what it computes *)

(** The phone the loop remembers for an accumulator [r]. *)
Definition phone (r : str) : option char :=
  match r with
  | [] => None
  | c0 :: rest => if (c0 =? space)%N then hd_error rest else Some c0
  end.

(** The character the loop puts in front of the accumulator [r]. *)
Definition realise (c : char) (r : str) : char :=
  let c1 :=
    if starts_with_space r && mem c _voiced
    then translate c _voiced2devoiced else c in
  match phone r with
  | None => if mem c1 _voiced then translate c1 _voiced2devoiced else c1
  | Some p =>
      if mem p _trigger_devoicing && mem c1 _voiced then
        translate c1 _voiced2devoiced
      else if mem p _trigger_voicing && mem c1 _devoiced then
        translate c1 _devoiced2voiced
      else c1
  end.

Fixpoint assimilated (s : str) : str :=
  match s with
  | [] => []
  | c :: s' => realise c (assimilated s') :: assimilated s'
  end.

(** ** Unicode property tables

    What [re] and [str] look up in the interpreter's Unicode database. *)

Class Unicode := {
  (** full case folding of one code point, as [str.casefold] applies it *)
  casefold_char : char -> str;
  (** [\w]: alphanumeric in the Unicode database, or the underscore *)
  isword : char -> bool;
  (** [\s], and the whitespace of [str.strip] *)
  isspace : char -> bool
}.

(** ** The fragment of [re] the program uses

    An optional leading [\b], then a sequence of one-character classes, each
    either captured as a group, or followed by [?] or [+]. *)

Inductive cls :=
| Chr (c : char)
| OneOf (l : str)
| Word
| NonWord
| Space
| NonSpace.

Inductive atom :=
| One (capture : bool) (k : cls)
| Opt (k : cls)
| Plus (k : cls).

Record regex := Regex { word_boundary : bool; atoms : list atom }.

Inductive titem :=
| TChr (c : char)
| TGroup (n : nat).

Definition template := list titem.

(** *** Parsing of pattern and replacement strings *)

Definition chr (s : string) : char := hd 0%N (ustr s).

Definition metachar (c : char) : bool := mem c (ustr ".^$*+?{}[]\|()").

Fixpoint parse_set (s : str) : option (str * str) :=
  match s with
  | [] => None
  | c :: s' =>
      if (c =? chr "]")%N then Some ([], s')
      else if mem c (ustr "\^-[") then None
      else match parse_set s' with
           | Some (l, r) => Some (c :: l, r)
           | None => None
           end
  end.

Definition parse_cls (s : str) : option (cls * str) :=
  match s with
  | [] => None
  | c :: s' =>
      if (c =? chr "\")%N then
        match s' with
        | e :: s'' =>
            if (e =? chr "w")%N then Some (Word, s'')
            else if (e =? chr "W")%N then Some (NonWord, s'')
            else if (e =? chr "s")%N then Some (Space, s'')
            else if (e =? chr "S")%N then Some (NonSpace, s'')
            else None
        | [] => None
        end
      else if (c =? chr "[")%N then
        match parse_set s' with
        | Some (l, r) => Some (OneOf l, r)
        | None => None
        end
      else if metachar c then None
      else Some (Chr c, s')
  end.

Definition parse_atom (s : str) : option (atom * str) :=
  match s with
  | [] => None
  | c :: s' =>
      if (c =? chr "(")%N then
        match parse_cls s' with
        | Some (k, d :: r) =>
            if (d =? chr ")")%N then Some (One true k, r) else None
        | _ => None
        end
      else
        match parse_cls s with
        | Some (k, q :: r) =>
            if (q =? chr "?")%N then Some (Opt k, r)
            else if (q =? chr "+")%N then Some (Plus k, r)
            else Some (One false k, q :: r)
        | Some (k, []) => Some (One false k, [])
        | None => None
        end
  end.

Fixpoint parse_atoms (fuel : nat) (s : str) : option (list atom) :=
  match s with
  | [] => Some []
  | _ :: _ =>
      match fuel with
      | O => None
      | S fuel' =>
          match parse_atom s with
          | Some (a, r) => option_map (cons a) (parse_atoms fuel' r)
          | None => None
          end
      end
  end.

Definition parse_regex (s : str) : option regex :=
  match s with
  | c :: d :: s' =>
      if (c =? chr "\")%N && (d =? chr "b")%N
      then option_map (Regex true) (parse_atoms (length s') s')
      else option_map (Regex false) (parse_atoms (length s) s)
  | _ => option_map (Regex false) (parse_atoms (length s) s)
  end.

Fixpoint parse_template (s : str) : option template :=
  match s with
  | [] => Some []
  | c :: s' =>
      if (c =? chr "\")%N then
        match s' with
        | d :: s'' =>
            if (chr "1" <=? d)%N && (d <=? chr "9")%N
            then option_map (cons (TGroup (N.to_nat (d - chr "0"))))
                   (parse_template s'')
            else None
        | [] => None
        end
      else option_map (cons (TChr c)) (parse_template s')
  end.

Definition captures (a : atom) : bool :=
  match a with One true _ => true | _ => false end.

Definition ngroups (p : regex) : nat := length (filter captures (atoms p)).

Definition template_ok (p : regex) (t : template) : bool :=
  forallb (fun i => match i with
                    | TChr _ => true
                    | TGroup n => (1 <=? n) && (n <=? ngroups p)
                    end) t.

(** *** Matching and substitution *)

Section Re.
Context {U : Unicode}.

Definition in_cls (k : cls) (c : char) : bool :=
  match k with
  | Chr x => (c =? x)%N
  | OneOf l => mem c l
  | Word => isword c
  | NonWord => negb (isword c)
  | Space => isspace c
  | NonSpace => negb (isspace c)
  end.

(** A match is the list of captured groups and the number of characters
    consumed.  [star k m] is zero or more characters of [k], as many as
    possible, followed by what [m] matches. *)
Fixpoint star (k : cls) (m : str -> option (list str * nat)) (s : str)
  : option (list str * nat) :=
  match s with
  | [] => m s
  | c :: s' =>
      if in_cls k c then
        match star k m s' with
        | Some (gs, n) => Some (gs, S n)
        | None => m s
        end
      else m s
  end.

Fixpoint match_atoms (l : list atom) (s : str) : option (list str * nat) :=
  match l with
  | [] => Some ([], O)
  | One capture k :: l' =>
      match s with
      | c :: s' =>
          if in_cls k c then
            match match_atoms l' s' with
            | Some (gs, n) => Some (if capture then [c] :: gs else gs, S n)
            | None => None
            end
          else None
      | [] => None
      end
  | Opt k :: l' =>
      match s with
      | c :: s' =>
          if in_cls k c then
            match match_atoms l' s' with
            | Some (gs, n) => Some (gs, S n)
            | None => match_atoms l' s
            end
          else match_atoms l' s
      | [] => match_atoms l' s
      end
  | Plus k :: l' =>
      match s with
      | c :: s' =>
          if in_cls k c then
            match star k (match_atoms l') s' with
            | Some (gs, n) => Some (gs, S n)
            | None => None
            end
          else None
      | [] => None
      end
  end.

(** [\b]: exactly one of the characters before and after the position is a
    word character (the ends of the string count as non-word). *)
Definition at_boundary (prev : option char) (s : str) : bool :=
  xorb (match prev with Some c => isword c | None => false end)
       (match s with c :: _ => isword c | [] => false end).

Definition match_at (p : regex) (prev : option char) (s : str)
  : option (list str * nat) :=
  if word_boundary p && negb (at_boundary prev s) then None
  else match_atoms (atoms p) s.

Fixpoint expand (t : template) (gs : list str) : str :=
  match t with
  | [] => []
  | TChr c :: t' => c :: expand t' gs
  | TGroup n :: t' => nth (pred n) gs [] ++ expand t' gs
  end.

(** The scan of [re.sub] over the input: [prev] is the character before the
    current position, [skip] the number of characters still covered by the
    last match.  An empty match is replaced and the scan moves on by one
    character. *)
Fixpoint sub_go (p : regex) (t : template) (prev : option char) (skip : nat)
  (s : str) : str :=
  match s with
  | [] =>
      match skip, match_at p prev [] with
      | O, Some (gs, _) => expand t gs
      | _, _ => []
      end
  | c :: s' =>
      match skip with
      | S k => sub_go p t (Some c) k s'
      | O =>
          match match_at p prev s with
          | Some (gs, S n) => expand t gs ++ sub_go p t (Some c) n s'
          | Some (gs, O) => expand t gs ++ c :: sub_go p t (Some c) O s'
          | None => c :: sub_go p t (Some c) O s'
          end
      end
  end.

(** [re.sub(pattern, repl, string)] *)
Definition re_sub (pattern repl : string) (s : str) : py str :=
  match parse_regex (ustr pattern), parse_template (ustr repl) with
  | Some p, Some t =>
      if template_ok p t then Ret (sub_go p t None O s) else Raise ReError
  | _, _ => Raise ReError
  end.

(** A sequence of statements [string = re.sub(pattern, repl, string)]. *)
Definition rule := (string * string)%type.
Definition sub (pattern repl : string) : rule := (pattern, repl).

Fixpoint re_subs (rules : list rule) (s : str) : py str :=
  match rules with
  | [] => Ret s
  | (pattern, repl) :: rules' =>
      s' <- re_sub pattern repl s ;; re_subs rules' s'
  end.

(** ** The methods of [Transcription] *)

Definition casefold (s : str) : str := flat_map casefold_char s.

Fixpoint lstrip (s : str) : str :=
  match s with
  | [] => []
  | c :: s' => if isspace c then lstrip s' else s
  end.

Fixpoint rstrip (s : str) : str :=
  match s with
  | [] => []
  | c :: s' =>
      match rstrip s' with
      | [] => if isspace c then [] else [c]
      | r => c :: r
      end
  end.

Definition strip (s : str) : str := rstrip (lstrip s).

Definition normalize (string : str) : py str :=
  string <- re_subs
    [ sub "(\w)(\W)" "\1 \2";
      sub "(\W)(\w)" "\1 \2";
      sub "\s+" " " ] (casefold string) ;;
  Ret (strip string).

Definition _ě (string : str) : py str :=
  re_subs
    [ sub "([bpfv])ě" "\1je";
      sub "dě" "ďe";
      sub "tě" "ťe";
      sub "ně" "ňe";
      sub "mě" "mňe";
      sub "ě" "je" ] string.

Definition _i_í (string : str) : py str :=
  re_subs
    [ sub "di" "ďi";
      sub "ti" "ťi";
      sub "ni" "ňi";
      sub "dí" "ďí";
      sub "tí" "ťí";
      sub "ní" "ňí" ] string.

Definition _collapse_expand (string : str) : py str :=
  re_subs
    [ sub "x" "ks";
      sub "qu?" "kv";
      sub "ch" "x";
      sub "dz" "ʒ";
      sub "dž" "ɮ" ] string.

Definition _foreign (string : str) : py str :=
  re_subs
    [ sub "w" "v" ] string.

Definition _unify (string : str) : py str :=
  re_subs
    [ sub "ů" "ú";
      sub "y" "i";
      sub "ý" "í" ] string.

Definition _heuristic (string : str) : py str :=
  re_subs
    [ sub "nk" "ŋk";
      sub "ng" "ŋg";
      sub "mv" "ɱv";
      sub "mf" "ɱf";
      sub "nť" "ňť";
      sub "nď" "ňď";
      sub "nň" "ň";
      sub "cc" "c";
      sub "dd" "d";
      sub "jj" "j";
      sub "kk" "k";
      sub "ll" "l";
      sub "nn" "n";
      sub "mm" "m";
      sub "ss" "s";
      sub "tt" "t";
      sub "zz" "z";
      sub "čč" "č";
      sub "šš" "š" ] string.

Definition _hiatus (string : str) : py str :=
  re_subs
    [ sub "([ií])([aeiouáéíóú])" "\1j\2" ] string.

Definition _init_scp (string : str) : py str :=
  re_subs
    [ sub "ccitt" "cécéítété";
      sub "nism" "nyzm";
      sub "nist" "nyst";
      sub "anti" "anty";
      sub "akti" "akty";
      sub "atik" "atyk";
      sub "tick" "tyck";
      sub "kandi" "kandy";
      sub "nie" "nye";
      sub "nii" "nyi";
      sub "arkti" "arkty";
      sub "atrakti" "atrakty";
      sub "audi" "audy";
      sub "automati" "automaty";
      sub "causa" "kauza";
      sub "celsia" "celzia";
      sub "chil" "čil";
      sub "danih" "danyh";
      sub "efektiv" "efektyv";
      sub "finiti" "finyty";
      sub "dealer" "dýler";
      sub "diag" "dyag";
      sub "diet" "dyet";
      sub "dif" "dyf";
      sub "dig" "dyg";
      sub "dikt" "dykt";
      sub "dilet" "dylet";
      sub "dipl" "dypl";
      sub "dirig" "dyryg";
      sub "disk" "dysk";
      sub "display" "dysplej";
      sub "disp" "dysp";
      sub "dist" "dyst";
      sub "divide" "dyvide";
      sub "dukti" "dukty";
      sub "edic" "edyc";
      sub "error" "eror";
      sub "\bex([aeiouáéíóúů])" "egz\1";
      sub "elektroni" "elektrony";
      sub "energetik" "energetyk";
      sub "etik" "etyk";
      sub "femini" "feminy";
      sub "finiš" "finyš";
      sub "monie" "monye";
      sub "geneti" "genety";
      sub "gieni" "gieny";
      sub "imuni" "imuny";
      sub "indiv" "indyv";
      sub "inici" "inyci";
      sub "investi" "investy";
      sub "karati" "karaty";
      sub "kardi" "kardy";
      sub "klaus" "klauz";
      sub "komuni" "komuny";
      sub "kondi" "kondy";
      sub "kredit" "kredyt";
      sub "kriti" "krity";
      sub "komodit" "komodyt";
      sub "konsor" "konzor";
      sub "leasing" "lízing";
      sub "giti" "gity";
      sub "medi" "medy";
      sub "motiv" "motyv";
      sub "manag" "menedž";
      sub "nsti" "nsty";
      sub "temati" "tematy";
      sub "mini" "miny";
      sub "minus" "mínus";
      sub "ing" "yng";
      sub "gativ" "gatyv";
      sub "mati" "maty";
      sub "manip" "manyp";
      sub "moderni" "moderny";
      sub "organi" "organy";
      sub "optim" "optym";
      sub "panick" "panyck";
      sub "pediatr" "pedyatr";
      sub "perviti" "pervity";
      sub "politi" "polity";
      sub "pozit" "pozyt";
      sub "privati" "privaty";
      sub "prostitu" "prostytu";
      sub "radik" "radyk";
      sub "\bradio" "radyo";
      sub "relativ" "relatyv";
      sub "restitu" "restytu";
      sub "rock" "rok";
      sub "rutin" "rutyn";
      sub "\brádi(\S)" "rády\1";
      sub "shop" "šop";
      sub "\bsho" "scho";
      sub "softwar" "softvér";
      sub "sortim" "sortym";
      sub "spektiv" "spektyv";
      sub "superlativ" "superlatyv";
      sub "nj" "ň";
      sub "statisti" "statysty";
      sub "stik" "styk";
      sub "stimul" "stymul";
      sub "studi" "study";
      sub "techni" "techny";
      sub "telecom" "telekom";
      sub "telefoni" "telefony";
      sub "tetik" "tetyk";
      sub "textil" "textyl";
      sub "tibet" "tybet";
      sub "tirany" "tyrany";
      sub "titul" "tytul";
      sub "tradi" "trady";
      sub "univer" "unyver";
      sub "venti" "venty";
      sub "vertik" "vertyk" ] string.

Definition _postprocess (string : str) : py str :=
  re_subs
    [ sub "ɮ" "ʒʒ";
      sub "x" "ch" ] string.

Definition _transcribe (ort : str) : py str :=
  fon <- normalize ort ;;
  fon <- _init_scp fon ;;
  fon <- _foreign fon ;;
  fon <- _collapse_expand fon ;;
  fon <- _ě fon ;;
  fon <- _i_í fon ;;
  fon <- _voicing_assim fon ;;
  fon <- _unify fon ;;
  fon <- _hiatus fon ;;
  fon <- _heuristic fon ;;
  _postprocess fon.

(** An instance of the class: the string it is as a [str], and its two
    attributes. *)
Record Transcription := Build { as_str : str; ort : str; fon : str }.

(** [Transcription(ort_string)]: [str.__new__] makes the object from the
    argument, then [__init__] sets the attributes. *)
Definition new (ort_string : str) : py Transcription :=
  let self_ort := ort_string in
  self_fon <- _transcribe self_ort ;;
  Ret (Build ort_string self_ort self_fon).

End Re.

(** ** A Unicode database for the Latin blocks

    The tables of the interpreter for the code points below U+0300 (Basic
    Latin to Spacing Modifier Letters, which hold the Czech alphabet and the
    phonetic symbols of the program), and the complete list of whitespace.
    Code points from U+0300 on are caseless and outside [\w] here. *)

Definition whitespace : list char :=
  [
    9; 10; 11; 12; 13; 28; 29; 30; 31; 32; 133; 160; 5760; 8192; 8193; 8194;
    8195; 8196; 8197; 8198; 8199; 8200; 8201; 8202; 8232; 8233; 8239; 8287;
    12288 ]%N.

Definition word_ranges : list (char * char) :=
  [
    (48, 57); (65, 90); (95, 95); (97, 122); (170, 170); (178, 179);
    (181, 181); (185, 186); (188, 190); (192, 214); (216, 246); (248, 705);
    (710, 721); (736, 740); (748, 748); (750, 750) ]%N.

Definition folding : list (char * str) :=
  [
    (65, [97]); (66, [98]); (67, [99]); (68, [100]); (69, [101]);
    (70, [102]); (71, [103]); (72, [104]); (73, [105]); (74, [106]);
    (75, [107]); (76, [108]); (77, [109]); (78, [110]); (79, [111]);
    (80, [112]); (81, [113]); (82, [114]); (83, [115]); (84, [116]);
    (85, [117]); (86, [118]); (87, [119]); (88, [120]); (89, [121]);
    (90, [122]); (181, [956]); (192, [224]); (193, [225]); (194, [226]);
    (195, [227]); (196, [228]); (197, [229]); (198, [230]); (199, [231]);
    (200, [232]); (201, [233]); (202, [234]); (203, [235]); (204, [236]);
    (205, [237]); (206, [238]); (207, [239]); (208, [240]); (209, [241]);
    (210, [242]); (211, [243]); (212, [244]); (213, [245]); (214, [246]);
    (216, [248]); (217, [249]); (218, [250]); (219, [251]); (220, [252]);
    (221, [253]); (222, [254]); (223, [115; 115]); (256, [257]);
    (258, [259]); (260, [261]); (262, [263]); (264, [265]); (266, [267]);
    (268, [269]); (270, [271]); (272, [273]); (274, [275]); (276, [277]);
    (278, [279]); (280, [281]); (282, [283]); (284, [285]); (286, [287]);
    (288, [289]); (290, [291]); (292, [293]); (294, [295]); (296, [297]);
    (298, [299]); (300, [301]); (302, [303]); (304, [105; 775]);
    (306, [307]); (308, [309]); (310, [311]); (313, [314]); (315, [316]);
    (317, [318]); (319, [320]); (321, [322]); (323, [324]); (325, [326]);
    (327, [328]); (329, [700; 110]); (330, [331]); (332, [333]);
    (334, [335]); (336, [337]); (338, [339]); (340, [341]); (342, [343]);
    (344, [345]); (346, [347]); (348, [349]); (350, [351]); (352, [353]);
    (354, [355]); (356, [357]); (358, [359]); (360, [361]); (362, [363]);
    (364, [365]); (366, [367]); (368, [369]); (370, [371]); (372, [373]);
    (374, [375]); (376, [255]); (377, [378]); (379, [380]); (381, [382]);
    (383, [115]); (385, [595]); (386, [387]); (388, [389]); (390, [596]);
    (391, [392]); (393, [598]); (394, [599]); (395, [396]); (398, [477]);
    (399, [601]); (400, [603]); (401, [402]); (403, [608]); (404, [611]);
    (406, [617]); (407, [616]); (408, [409]); (412, [623]); (413, [626]);
    (415, [629]); (416, [417]); (418, [419]); (420, [421]); (422, [640]);
    (423, [424]); (425, [643]); (428, [429]); (430, [648]); (431, [432]);
    (433, [650]); (434, [651]); (435, [436]); (437, [438]); (439, [658]);
    (440, [441]); (444, [445]); (452, [454]); (453, [454]); (455, [457]);
    (456, [457]); (458, [460]); (459, [460]); (461, [462]); (463, [464]);
    (465, [466]); (467, [468]); (469, [470]); (471, [472]); (473, [474]);
    (475, [476]); (478, [479]); (480, [481]); (482, [483]); (484, [485]);
    (486, [487]); (488, [489]); (490, [491]); (492, [493]); (494, [495]);
    (496, [106; 780]); (497, [499]); (498, [499]); (500, [501]);
    (502, [405]); (503, [447]); (504, [505]); (506, [507]); (508, [509]);
    (510, [511]); (512, [513]); (514, [515]); (516, [517]); (518, [519]);
    (520, [521]); (522, [523]); (524, [525]); (526, [527]); (528, [529]);
    (530, [531]); (532, [533]); (534, [535]); (536, [537]); (538, [539]);
    (540, [541]); (542, [543]); (544, [414]); (546, [547]); (548, [549]);
    (550, [551]); (552, [553]); (554, [555]); (556, [557]); (558, [559]);
    (560, [561]); (562, [563]); (570, [11365]); (571, [572]); (573, [410]);
    (574, [11366]); (577, [578]); (579, [384]); (580, [649]); (581, [652]);
    (582, [583]); (584, [585]); (586, [587]); (588, [589]); (590, [591]) ]%N.

Definition in_ranges (c : char) (rs : list (char * char)) : bool :=
  existsb (fun r => (fst r <=? c)%N && (c <=? snd r)%N) rs.

Fixpoint lookup (c : char) (table : list (char * str)) : option str :=
  match table with
  | [] => None
  | (k, v) :: table' => if (k =? c)%N then Some v else lookup c table'
  end.

Definition latin : Unicode := {|
  casefold_char c :=
    match lookup c folding with Some f => f | None => [c] end;
  isword c := in_ranges c word_ranges;
  isspace c := mem c whitespace
|}.

(** ** Laws of the Unicode tables

    Facts of the Unicode database that the proofs below rely on: case
    folding yields characters that fold to themselves, U+0020 is such a
    character and is whitespace, and no whitespace is a word character. *)

Class UnicodeLaws (U : Unicode) : Prop := {
  casefold_stable :
    forall c d, In d (casefold_char c) -> casefold_char d = [d];
  casefold_space : casefold_char space = [space];
  space_is_space : isspace space = true;
  space_not_word : forall c, isspace c = true -> isword c = false
}.

(** ** Closed forms of the substitutions of [normalize] *)

Section ClosedForms.
Context {U : Unicode}.

(** A space between each [a] of class [k1] and a following [b] of class
    [k2]. *)
Fixpoint spaced (k1 k2 : cls) (s : str) : str :=
  match s with
  | [] => []
  | a :: s' =>
      match s' with
      | b :: _ =>
          if in_cls k1 a && in_cls k2 b then a :: space :: spaced k1 k2 s'
          else a :: spaced k1 k2 s'
      | [] => [a]
      end
  end.

(** The number of whitespace characters a string begins with. *)
Fixpoint indent (s : str) : nat :=
  match s with
  | c :: s' => if isspace c then S (indent s') else O
  | [] => O
  end.

(** Each run of whitespace becomes one space; [inrun] says that the
    characters before [s] already belong to a run. *)
Fixpoint collapse (inrun : bool) (s : str) : str :=
  match s with
  | [] => []
  | c :: s' =>
      if isspace c then
        if inrun then collapse true s' else space :: collapse true s'
      else c :: collapse false s'
  end.

(** The three substitutions of [normalize] in one pass: whitespace runs
    become one space, and a space separates a word character from a
    neighbouring non-word character. *)
Fixpoint tokens (inrun : bool) (s : str) : str :=
  match s with
  | [] => []
  | a :: s' =>
      if isspace a then
        if inrun then tokens true s' else space :: tokens true s'
      else if match s' with
              | b :: _ => xorb (isword a) (isword b)
              | [] => false
              end
           then a :: space :: tokens true s'
           else a :: tokens false s'
  end.

(** Strings that [tokens] leaves alone: the only whitespace is U+0020, never
    twice in a row, and neighbours that are not whitespace are both word
    characters or both not. *)
Definition tidy_pair (a b : char) : bool :=
  if isspace a then negb (isspace b)
  else isspace b || Bool.eqb (isword a) (isword b).

Fixpoint tidy (s : str) : bool :=
  match s with
  | [] => true
  | a :: s' =>
      (negb (isspace a) || (a =? space)%N)
      && match s' with b :: _ => tidy_pair a b | [] => true end
      && tidy s'
  end.

(** *** Checks on concrete strings and rule tables *)

(** No two spaces in a row. *)
Fixpoint single_spaced (s : str) : bool :=
  match s with
  | [] => true
  | a :: s' =>
      match s' with
      | b :: _ => negb ((a =? space)%N && (b =? space)%N)
      | [] => true
      end
      && single_spaced s'
  end.

(** The atoms match at no position of [s]. *)
Fixpoint never (l : list atom) (s : str) : bool :=
  match match_atoms l s with None => true | Some _ => false end
  && match s with
     | [] => true
     | _ :: s' => never l s'
     end.

(** The rule is well formed and finds nothing to replace in [s]. *)
Definition noop_rule (s : str) (r : rule) : bool :=
  match parse_regex (ustr (fst r)), parse_template (ustr (snd r)) with
  | Some p, Some t => template_ok p t && never (atoms p) s
  | _, _ => false
  end.

End ClosedForms.

(** ** Checks on rule tables

    Syntactic conditions under which a table of rules cannot fail, and under
    which it leaves the last character of a string visible (not a space). *)

(** The pattern begins with a mandatory character, so its matches are not
    empty. *)
Definition headed (p : regex) : bool :=
  match atoms p with
  | One _ _ :: _ | Plus _ :: _ => true
  | _ => false
  end.

Definition rule_ok (r : rule) : bool :=
  match parse_regex (ustr (fst r)), parse_template (ustr (snd r)) with
  | Some p, Some t => template_ok p t
  | _, _ => false
  end.

(** A class that a space is certainly not in. *)
Definition excludes_space (k : cls) : bool :=
  match k with
  | Chr x => negb (x =? space)%N
  | OneOf l => negb (mem space l)
  | NonSpace => true
  | _ => false
  end.

Definition capture_classes (l : list atom) : list cls :=
  flat_map (fun a => match a with One true k => [k] | _ => [] end) l.

(** The replacement ends in a character other than the space. *)
Definition ends_visibly (p : regex) (t : template) : bool :=
  match rev t with
  | TChr c :: _ => negb (c =? space)%N
  | TGroup n :: _ =>
      match nth_error (capture_classes (atoms p)) (pred n) with
      | Some k => excludes_space k
      | None => false
      end
  | [] => false
  end.

Definition visible_rule (r : rule) : bool :=
  match parse_regex (ustr (fst r)), parse_template (ustr (snd r)) with
  | Some p, Some t => template_ok p t && headed p && ends_visibly p t
  | _, _ => false
  end.

(** A stage that returns on every string. *)
Definition total (f : str -> py str) : Prop :=
  forall s, exists out, f s = Ret out.

(** ** Words and spaces

    The skeleton of a string forgets everything but its division into words:
    [true] stands for a space, [false] for a maximal run of other
    characters. *)

Definition count_spaces (s : str) : nat :=
  length (filter (fun c => (c =? space)%N) s).

Definition word_cons (k : list bool) : list bool :=
  match k with
  | false :: _ => k
  | _ => false :: k
  end.

Fixpoint skeleton (s : str) : list bool :=
  match s with
  | [] => []
  | c :: s' =>
      if (c =? space)%N then true :: skeleton s' else word_cons (skeleton s')
  end.

(** What a skeleton says about the spaces of its string: how many there
    are, whether two stand side by side, whether one stands first or last. *)
Definition sk_count (k : list bool) : nat := length (filter (fun b => b) k).

Fixpoint sk_single (k : list bool) : bool :=
  match k with
  | [] => true
  | b :: k' => negb (b && hd false k') && sk_single k'
  end.

Definition sk_starts (k : list bool) : bool := hd false k.

Definition sk_ends (k : list bool) : bool := last k false.

Definition nonspace (c : char) : Prop := (c =? space)%N = false.

(** A match that covers no space and captures none. *)
Definition spaceless_match (s : str) (m : list str * nat) : Prop :=
  snd m <= length s
  /\ Forall nonspace (firstn (snd m) s)
  /\ Forall (Forall nonspace) (fst m).

(** A rule that neither matches nor writes a space, and whose replacement is
    not empty. *)
Definition spaceless_atom (a : atom) : bool :=
  match a with
  | One _ k | Opt k | Plus k => excludes_space k
  end.

Definition spaceless_item (i : titem) : bool :=
  match i with
  | TChr c => negb (c =? space)%N
  | TGroup _ => true
  end.

Definition wordwise_rule (r : rule) : bool :=
  match parse_regex (ustr (fst r)), parse_template (ustr (snd r)) with
  | Some p, Some t =>
      template_ok p t && headed p && ends_visibly p t
      && forallb spaceless_atom (atoms p) && forallb spaceless_item t
  | _, _ => false
  end.

(** The literal characters of a replacement satisfy [P]. *)
Definition literals (P : char -> Prop) (t : template) : Prop :=
  Forall (fun i => match i with TChr c => P c | TGroup _ => True end) t.

(** No character of [s] is one of [banned]. *)
Definition free_of (banned : str) (s : str) : Prop :=
  Forall (fun c => mem c banned = false) s.

(** A rule whose replacement text has no character of [banned]. *)
Definition avoids (banned : str) (r : rule) : bool :=
  match parse_regex (ustr (fst r)), parse_template (ustr (snd r)) with
  | Some p, Some t =>
      template_ok p t
      && forallb (fun i => match i with
                           | TChr c => negb (mem c banned)
                           | TGroup _ => true
                           end) t
  | _, _ => false
  end.

(** [qu?] replaced by [r], in closed form. *)
Fixpoint without_q (r : str) (s : str) : str :=
  match s with
  | [] => []
  | c :: s' =>
      if (c =? chr "q")%N then
        r ++ match s' with
             | d :: s'' => if (d =? chr "u")%N then without_q r s''
                           else without_q r s'
             | [] => []
             end
      else c :: without_q r s'
  end.

(** ** Palatalisation in closed form *)

(** [f] applied to each character and the one that follows it. *)
Fixpoint look (f : char -> option char -> char) (s : str) : str :=
  match s with
  | [] => []
  | c :: s' => f c (hd_error s') :: look f s'
  end.

(** One rule of [_i_í]: [a] becomes [a'] before [b]. *)
Definition soften_before (a b a' : char) (c : char) (next : option char)
  : char :=
  match next with
  | Some n => if (c =? a)%N && (n =? b)%N then a' else c
  | None => c
  end.

(** [f] never makes a character into [b], nor [b] into another. *)
Definition keeps (b : char) (f : char -> option char -> char) : Prop :=
  forall y k, (f y k =? b)%N = (y =? b)%N.

(** The six rules together: "d", "t", "n" become "ď", "ť", "ň" before "i"
    and before "í". *)
Definition palatalise (c : char) (next : option char) : char :=
  match next with
  | Some n =>
      if (n =? chr "i")%N || (n =? chr "í")%N then
        if (c =? chr "d")%N then chr "ď"
        else if (c =? chr "t")%N then chr "ť"
        else if (c =? chr "n")%N then chr "ň"
        else c
      else c
  | None => c
  end.

(** The character-wise replacements of [_foreign] and [_unify]. *)
Definition foreign_char (c : char) : char :=
  if (c =? chr "w")%N then chr "v" else c.

Definition unify_char (c : char) : char :=
  if (c =? chr "ů")%N then chr "ú"
  else if (c =? chr "y")%N then chr "i"
  else if (c =? chr "ý")%N then chr "í"
  else c.

(** The loop of [_voicing_assim] read from the front of the string: the
    state after the characters of [s] have been visited from the last to the
    first. *)
Definition run (s : str) : py locals :=
  fold_right (fun char acc => st <- acc ;; loop_body st char)
    (Ret (Locals [] None)) s.

(** What a translation may do to one input character. *)
Definition counterpart (i o : char) : Prop :=
  o = i \/ o = translate i _voiced2devoiced \/ o = translate i _devoiced2voiced.

Definition revoiced (i o : char) : Prop :=
  counterpart i o
  \/ o = translate (translate i _voiced2devoiced) _devoiced2voiced.

(** * Properties *)

(** ** The symbol classes *)

Lemma mem_In (c : char) (s : str) : mem c s = true <-> In c s.
Proof.
  unfold mem. rewrite existsb_exists. split.
  - intros [x [Hx E]]. apply N.eqb_eq in E. now subst.
  - intros H. exists c. split; [assumption | apply N.eqb_refl].
Qed.

Lemma mem_app (c : char) (s t : str) : mem c (s ++ t) = mem c s || mem c t.
Proof. apply existsb_app. Qed.

Ltac each_member H :=
  apply mem_In in H; vm_compute in H;
  repeat (destruct H as [H | H]; [subst | ]); try contradiction.

(** Both arguments of each [str.maketrans] call have eleven characters, so
    the class body does not raise [ValueError]. *)
Lemma maketrans_lengths : length _devoiced = length _voiced.
Proof. reflexivity. Qed.

Lemma voiced_facts (c : char) :
  mem c _voiced = true ->
  mem (translate c _voiced2devoiced) _devoiced = true
  /\ mem (translate c _voiced2devoiced) _voiced = false
  /\ translate c _voiced2devoiced <> space
  /\ c <> space
  /\ mem c _devoiced = false.
Proof.
  intros H. each_member H; vm_compute; repeat split;
    solve [ reflexivity | discriminate ].
Qed.

Lemma devoiced_facts (c : char) :
  mem c _devoiced = true -> mem c _voiced = false /\ c <> space.
Proof.
  intros H. each_member H; vm_compute; split;
    solve [ reflexivity | discriminate ].
Qed.

Lemma trigger_voicing_voiced (c : char) :
  mem c _trigger_voicing = true -> mem c _voiced = true.
Proof. intros H. unfold _voiced. rewrite mem_app, H. reflexivity. Qed.

Lemma space_neutral :
  mem space _voiced = false /\ mem space _devoiced = false.
Proof. split; reflexivity. Qed.

(** C6. The two translation tables undo each other on the paired symbols:
    every voiced symbol other than "h" comes back from devoicing followed by
    voicing, and every devoiced symbol comes back from voicing followed by
    devoicing. *)
Theorem tables_inverse_on_pairs :
  Forall (fun c =>
            translate (translate c _voiced2devoiced) _devoiced2voiced = c)
         (filter (fun c => negb (c =? chr "h")%N) _voiced)
  /\ Forall (fun c =>
               translate (translate c _devoiced2voiced) _voiced2devoiced = c)
            (ustr "ptťksšcčxf")
  /\ (forall c, In c _devoiced <-> In c (ustr "ptťksšcčxf"))
  /\ (forall c, In c _voiced <-> In c (ustr "bdďgzžʒɮhɣv")).
Proof.
  split; [ | split; [ | split ] ].
  - vm_compute. repeat constructor.
  - vm_compute. repeat constructor.
  - intros c. vm_compute. tauto.
  - intros c. vm_compute. tauto.
Qed.

(** The one voiced symbol outside the pairing: "h" devoices to "x", which
    voices to "ɣ". *)
Lemma h_not_paired :
  translate (chr "h") _voiced2devoiced = chr "x"
  /\ translate (chr "x") _devoiced2voiced = chr "ɣ".
Proof. split; reflexivity. Qed.

(** ** The scan of [_voicing_assim] *)

Lemma voicing_assim_run (s : str) :
  _voicing_assim s = (st <- run s ;; Ret (result st)).
Proof.
  unfold _voicing_assim, run.
  rewrite <- (rev_involutive s) at 2.
  rewrite (fold_left_rev_right
             (fun char acc => st <- acc ;; loop_body st char)).
  reflexivity.
Qed.

Lemma assimilated_nonempty (s : str) : s <> [] -> assimilated s <> [].
Proof. destruct s; simpl; [congruence | discriminate]. Qed.

Lemma realise_first (c : char) :
  realise c [] = if mem c _voiced then translate c _voiced2devoiced else c.
Proof. reflexivity. Qed.

Lemma realise_first_space (c : char) :
  (realise c [] =? space)%N = (c =? space)%N.
Proof.
  rewrite realise_first. destruct (mem c _voiced) eqn:V; [ | reflexivity ].
  destruct (voiced_facts c V) as (_ & _ & H1 & H2 & _).
  apply N.eqb_neq in H1, H2. now rewrite H1, H2.
Qed.

(** One iteration on a non-empty accumulator whose remembered phone is the
    one the loop would have stored. *)
Lemma loop_body_cons (c y : char) (r : str) :
  loop_body (Locals (y :: r) (phone (y :: r))) c =
  match phone (y :: r) with
  | Some _ =>
      Ret (Locals (realise c (y :: r) :: y :: r)
             (phone (realise c (y :: r) :: y :: r)))
  | None => Raise UnboundLocalError
  end.
Proof.
  unfold loop_body, realise.
  cbn [result previous_phone is_empty andb].
  destruct (phone (y :: r)) as [p | ] eqn:P; [ | reflexivity ].
  cbn [load bind].
  set (c1 := if starts_with_space (y :: r) && mem c _voiced
             then translate c _voiced2devoiced else c).
  set (x := if mem p _trigger_devoicing && mem c1 _voiced
            then translate c1 _voiced2devoiced
            else if mem p _trigger_voicing && mem c1 _devoiced
                 then translate c1 _devoiced2voiced else c1).
  assert (E : (if mem p _trigger_devoicing && mem c1 _voiced
               then Ret (translate c1 _voiced2devoiced :: y :: r)
               else if mem p _trigger_voicing && mem c1 _devoiced
                    then Ret (translate c1 _devoiced2voiced :: y :: r)
                    else Ret (c1 :: y :: r)) = Ret (x :: y :: r)).
  { subst x. destruct (mem p _trigger_devoicing && mem c1 _voiced);
      [ reflexivity | ].
    destruct (mem p _trigger_voicing && mem c1 _devoiced); reflexivity. }
  rewrite E. cbn [bind index nth_error phone hd_error].
  destruct (x =? space)%N; reflexivity.
Qed.

Lemma phone_cons_cons (x y : char) (r : str) :
  exists p, phone (x :: y :: r) = Some p.
Proof. simpl. destruct (x =? space)%N; eauto. Qed.

Lemma ends_with_space_cons (c y : char) (s : str) :
  ends_with_space (c :: y :: s) = ends_with_space (y :: s).
Proof. reflexivity. Qed.

(** The state of the loop after a non-empty string. *)
Lemma run_spec (s : str) :
  s <> [] ->
  run s = if ends_with_space s then Raise IndexError
          else Ret (Locals (assimilated s) (phone (assimilated s))).
Proof.
  induction s as [ | c s IH ]; [ congruence | intros _ ].
  destruct s as [ | y s ].
  - (* the last character of the string, visited first *)
    cbn [run fold_right bind assimilated ends_with_space].
    unfold loop_body.
    cbn [result previous_phone starts_with_space is_empty andb].
    assert (E : (if mem c _voiced then Ret [translate c _voiced2devoiced]
                 else Ret [c]) = Ret [realise c []]).
    { rewrite realise_first. destruct (mem c _voiced); reflexivity. }
    rewrite E. cbn [bind index nth_error phone].
    rewrite <- (realise_first_space c).
    destruct (realise c [] =? space)%N; reflexivity.
  - rewrite ends_with_space_cons.
    change (run (c :: y :: s))
      with (st <- run (y :: s) ;; loop_body st c).
    rewrite IH by discriminate.
    destruct (ends_with_space (y :: s)) eqn:Y; [ reflexivity | ].
    cbn [bind]. cbn [assimilated].
    set (x := realise y (assimilated s)).
    rewrite loop_body_cons.
    destruct (assimilated s) as [ | z r ] eqn:R.
    + (* [y] was the last character, and is not a space *)
      destruct (phone [x]) eqn:P; [ reflexivity | ].
      exfalso. simpl in P. destruct (x =? space)%N eqn:X; [ | discriminate ].
      subst x. rewrite realise_first_space in X.
      assert (s = []) by (destruct s; [ reflexivity | discriminate R ]).
      subst s. simpl in Y. congruence.
    + destruct (phone_cons_cons x z r) as [p ->]. reflexivity.
Qed.

(** [_voicing_assim] in closed form: it raises [IndexError] on a string that
    ends in a space, and returns the assimilated string otherwise. *)
Theorem voicing_assim_spec (s : str) :
  _voicing_assim s =
  if ends_with_space s then Raise IndexError else Ret (assimilated s).
Proof.
  rewrite voicing_assim_run. destruct s as [ | c s ]; [ reflexivity | ].
  rewrite run_spec by discriminate.
  destruct (ends_with_space (c :: s)); reflexivity.
Qed.

Lemma voicing_assim_returns (s out : str) :
  _voicing_assim s = Ret out ->
  ends_with_space s = false /\ out = assimilated s.
Proof.
  rewrite voicing_assim_spec.
  destruct (ends_with_space s); [ discriminate | ].
  intros H. injection H as <-. split; reflexivity.
Qed.

Lemma ends_with_space_app (l1 l2 : str) :
  l2 <> [] -> ends_with_space (l1 ++ l2) = ends_with_space l2.
Proof.
  intros H. induction l1 as [ | a l1 IH ]; [ reflexivity | ].
  simpl app. destruct (l1 ++ l2) eqn:E.
  - destruct l1; [ simpl in E; congruence | discriminate ].
  - rewrite ends_with_space_cons. exact IH.
Qed.

Lemma assimilated_length (s : str) : length (assimilated s) = length s.
Proof. induction s; simpl; congruence. Qed.

Lemma assimilated_app (l1 l2 : str) :
  exists pre, assimilated (l1 ++ l2) = pre ++ assimilated l2
              /\ length pre = length l1.
Proof.
  induction l1 as [ | a l1 (pre & E & L) ].
  - exists []. split; reflexivity.
  - exists (realise a (assimilated (l1 ++ l2)) :: pre). simpl.
    rewrite L. split; [ | reflexivity ]. f_equal. exact E.
Qed.

Lemma realise_neutral (c : char) (r : str) :
  mem c _voiced = false -> mem c _devoiced = false -> realise c r = c.
Proof.
  intros V D. unfold realise. rewrite V, andb_false_r.
  destruct (phone r); rewrite V; [ | reflexivity ].
  rewrite D, !andb_false_r. reflexivity.
Qed.

Lemma realise_revoiced (c : char) (r : str) : revoiced c (realise c r).
Proof.
  unfold realise, revoiced, counterpart.
  destruct (mem c _voiced) eqn:V.
  - destruct (voiced_facts c V) as (D1 & V1 & _ & _ & D).
    destruct (starts_with_space r); cbn [andb];
      destruct (phone r) as [ p | ].
    + rewrite V1, andb_false_r.
      destruct (mem p _trigger_voicing && _); tauto.
    + rewrite V1. tauto.
    + rewrite V, D, andb_false_r.
      destruct (mem p _trigger_devoicing && true); tauto.
    + rewrite V. tauto.
  - rewrite andb_false_r. destruct (phone r) as [ p | ]; rewrite V.
    + rewrite andb_false_r.
      destruct (mem p _trigger_voicing && _); tauto.
    + tauto.
Qed.

Lemma assimilated_revoiced (s : str) : Forall2 revoiced s (assimilated s).
Proof.
  induction s; simpl; constructor; [ apply realise_revoiced | assumption ].
Qed.

(** The character realised for a voiced [c] in front of a space. *)
Lemma realise_before_space (c p : char) (r : str) :
  mem c _voiced = true ->
  realise c (space :: p :: r) =
  if mem p _trigger_voicing
  then translate (translate c _voiced2devoiced) _devoiced2voiced
  else translate c _voiced2devoiced.
Proof.
  intros V. destruct (voiced_facts c V) as (D1 & V1 & _).
  unfold realise. cbn [starts_with_space phone hd_error andb].
  rewrite N.eqb_refl, V. cbn [andb].
  rewrite V1, D1, andb_false_r, andb_true_r. reflexivity.
Qed.

Lemma phone_In (r : str) (p : char) : phone r = Some p -> In p r.
Proof.
  destruct r as [ | x r ]; [ discriminate | ]. simpl.
  destruct (x =? space)%N.
  - destruct r; simpl; [ discriminate | ].
    intros H. injection H as ->. auto.
  - intros H. injection H as ->. auto.
Qed.

Lemma assimilated_unvoiced (s : str) :
  (forall c, In c s -> mem c _voiced = false) -> assimilated s = s.
Proof.
  induction s as [ | c s IH ]; [ reflexivity | ]. intros H. simpl.
  rewrite IH by (intros; apply H; now right). f_equal.
  assert (V : mem c _voiced = false) by (apply H; now left).
  unfold realise. rewrite V, andb_false_r.
  destruct (phone s) as [ p | ] eqn:P; rewrite V; [ | reflexivity ].
  rewrite andb_false_r.
  destruct (mem p _trigger_voicing) eqn:T; [ | reflexivity ].
  apply trigger_voicing_voiced in T.
  rewrite H in T by (right; now apply phone_In). discriminate.
Qed.

(** C2, as the claim states it, fails: in "d ba" the "d" stands before a
    space, and is emitted as "d", not as its devoiced counterpart "t",
    because the "b" after the space voices it again. *)
Lemma word_final_devoicing_fails :
  _voicing_assim (ustr "d ba") = Ret (ustr "d ba")
  /\ nth_error (ustr "d ba") 0 = Some (chr "d")
  /\ mem (chr "d") _voiced = true
  /\ nth_error (ustr "d ba") 1 = Some space
  /\ translate (chr "d") _voiced2devoiced = chr "t"
  /\ nth_error (ustr "d ba") 0 <> Some (chr "t").
Proof. vm_compute. repeat split; discriminate. Qed.

(** C2, amended.  When [_voicing_assim] returns and a voiced character stands
    immediately before a space, the character emitted in its place is its
    devoiced counterpart, unless the character emitted after that space is a
    voicing trigger: then it is the voiced counterpart of that devoiced
    counterpart. *)
Theorem word_final_devoicing (s out : str) (i : nat) (c : char) :
  _voicing_assim s = Ret out ->
  nth_error s i = Some c ->
  mem c _voiced = true ->
  nth_error s (S i) = Some space ->
  exists p,
    nth_error out (S (S i)) = Some p
    /\ nth_error out i =
       Some (if mem p _trigger_voicing
             then translate (translate c _voiced2devoiced) _devoiced2voiced
             else translate c _voiced2devoiced).
Proof.
  intros R Hc V Hs.
  apply voicing_assim_returns in R. destruct R as [E ->].
  apply nth_error_split in Hc. destruct Hc as (l1 & l2 & -> & L).
  assert (Hl2 : exists t, l2 = space :: t).
  { rewrite <- L in Hs.
    replace (S (length l1)) with (length l1 + 1) in Hs by lia.
    rewrite nth_error_app2 in Hs by lia.
    replace (length l1 + 1 - length l1) with 1 in Hs by lia.
    destruct l2; simpl in Hs; [ discriminate | ].
    injection Hs as ->. eauto. }
  destruct Hl2 as [t ->].
  rewrite ends_with_space_app in E by discriminate.
  destruct t as [ | q t ]; [ discriminate E | ].
  destruct (assimilated_app l1 (c :: space :: q :: t)) as (pre & -> & Lp).
  cbn [assimilated].
  rewrite (realise_neutral space) by apply space_neutral.
  rewrite realise_before_space by assumption.
  exists (realise q (assimilated t)).
  rewrite <- L, <- Lp. split.
  - replace (S (S (length pre))) with (length pre + 2) by lia.
    rewrite nth_error_app2 by lia.
    replace (length pre + 2 - length pre) with 2 by lia. reflexivity.
  - rewrite nth_error_app2 by lia. rewrite Nat.sub_diag. reflexivity.
Qed.

Lemma word_final_devoicing_witness :
  exists p,
    nth_error (ustr "ɣ ba") 2 = Some p
    /\ nth_error (ustr "ɣ ba") 0 =
       Some (if mem p _trigger_voicing
             then translate (translate (chr "h") _voiced2devoiced)
                    _devoiced2voiced
             else translate (chr "h") _voiced2devoiced).
Proof.
  apply (word_final_devoicing (ustr "h ba") (ustr "ɣ ba") 0 (chr "h"));
    reflexivity.
Defined.

(** C3. On a string whose last character is voiced, [_voicing_assim] returns,
    and the last character of what it returns is the devoiced counterpart of
    that character. *)
Theorem utterance_final_devoicing (s : str) (c : char) :
  mem c _voiced = true ->
  exists out,
    _voicing_assim (s ++ [c]) = Ret (out ++ [translate c _voiced2devoiced])
    /\ length out = length s.
Proof.
  intros V. rewrite voicing_assim_spec.
  rewrite ends_with_space_app by discriminate.
  destruct (voiced_facts c V) as (_ & _ & _ & Hc & _).
  cbn [ends_with_space]. apply N.eqb_neq in Hc. rewrite Hc.
  destruct (assimilated_app s [c]) as (pre & -> & L).
  exists pre. cbn [assimilated]. rewrite realise_first, V.
  split; [ reflexivity | exact L ].
Qed.

Lemma utterance_final_devoicing_witness :
  exists out,
    _voicing_assim (ustr "hrad") = Ret (out ++ [chr "t"])
    /\ length out = 3.
Proof.
  apply (utterance_final_devoicing (ustr "hra") (chr "d")). reflexivity.
Defined.

(** C4, as the claim states it, fails: for "h ba" the scan returns "ɣ ba",
    and "ɣ" is neither "h" nor the counterpart of "h" under either table
    (devoicing gives "x", voicing leaves "h"). *)
Lemma voicing_closure_fails :
  _voicing_assim (ustr "h ba") = Ret (ustr "ɣ ba")
  /\ ~ Forall2 counterpart (ustr "h ba") (ustr "ɣ ba").
Proof.
  split; [ reflexivity | ].
  intros H. inversion H as [ | i o l l' C _ ]; subst.
  destruct C as [ C | [ C | C ] ]; vm_compute in C; discriminate.
Qed.

(** C4, amended.  When [_voicing_assim] returns, the output has the length of
    the input, and each output character is the input character at that
    position, its counterpart under one of the two tables, or the voiced
    counterpart of its devoiced counterpart. *)
Theorem voicing_closure (s out : str) :
  _voicing_assim s = Ret out ->
  length out = length s /\ Forall2 revoiced s out.
Proof.
  intros R. apply voicing_assim_returns in R. destruct R as [_ ->].
  split; [ apply assimilated_length | apply assimilated_revoiced ].
Qed.

Lemma voicing_closure_witness :
  length (ustr "ɣ ba") = length (ustr "h ba")
  /\ Forall2 revoiced (ustr "h ba") (ustr "ɣ ba").
Proof. apply (voicing_closure (ustr "h ba") (ustr "ɣ ba")). reflexivity. Defined.

(** C7. A string without voiced characters that does not end in a space is
    returned unchanged. *)
Theorem voicing_assim_unvoiced (s : str) :
  (forall c, In c s -> mem c _voiced = false) ->
  ends_with_space s = false ->
  _voicing_assim s = Ret s.
Proof.
  intros H E. rewrite voicing_assim_spec, E.
  rewrite assimilated_unvoiced by assumption. reflexivity.
Qed.

Lemma voicing_assim_unvoiced_witness :
  _voicing_assim (ustr "pták spí") = Ret (ustr "pták spí").
Proof.
  apply (voicing_assim_unvoiced (ustr "pták spí")); [ | reflexivity ].
  intros c H. vm_compute in H.
  repeat (destruct H as [ H | H ]; [ subst; reflexivity | ]).
  contradiction.
Defined.

(** ** The substitution engine *)

Section Engine.
Context {U : Unicode}.

Lemma re_sub_parsed (pattern repl : string) (p : regex) (t : template)
  (s : str) :
  parse_regex (ustr pattern) = Some p ->
  parse_template (ustr repl) = Some t ->
  template_ok p t = true ->
  re_sub pattern repl s = Ret (sub_go p t None O s).
Proof. intros Hp Ht Hok. unfold re_sub. now rewrite Hp, Ht, Hok. Qed.

Lemma expand_text (r : str) (gs : list str) : expand (map TChr r) gs = r.
Proof. induction r; simpl; congruence. Qed.

(** A pattern without [\b] does not look at the character before the
    position. *)
Lemma sub_go_prev (p : regex) (t : template) (prev prev' : option char)
  (k : nat) (s : str) :
  word_boundary p = false ->
  sub_go p t prev k s = sub_go p t prev' k s.
Proof.
  intros Hp. revert prev prev' k.
  induction s as [ | c s IH ]; intros prev prev' k.
  - simpl. unfold match_at. rewrite Hp. reflexivity.
  - simpl. destruct k; [ | reflexivity ].
    unfold match_at. rewrite Hp. reflexivity.
Qed.

(** A one-character pattern replaced by a fixed text. *)
Lemma sub_go_char (x : char) (r : str) (prev : option char) (s : str) :
  sub_go (Regex false [One false (Chr x)]) (map TChr r) prev O s =
  flat_map (fun c => if (c =? x)%N then r else [c]) s.
Proof.
  revert prev. induction s as [ | c s IH ]; intros prev; [ reflexivity | ].
  cbn [sub_go match_at word_boundary atoms andb match_atoms in_cls flat_map].
  destruct (c =? x)%N.
  - rewrite expand_text, IH. reflexivity.
  - rewrite IH. reflexivity.
Qed.

Lemma sub_go_step (p : regex) (t : template) (prev : option char)
  (c : char) (s : str) :
  sub_go p t prev O (c :: s) =
  match match_at p prev (c :: s) with
  | Some (gs, S n) => expand t gs ++ sub_go p t (Some c) n s
  | Some (gs, O) => expand t gs ++ c :: sub_go p t (Some c) O s
  | None => c :: sub_go p t (Some c) O s
  end.
Proof. reflexivity. Qed.

Lemma sub_go_skip (p : regex) (t : template) (prev : option char)
  (k : nat) (c : char) (s : str) :
  sub_go p t prev (S k) (c :: s) = sub_go p t (Some c) k s.
Proof. reflexivity. Qed.

Lemma match_at_pair (k1 k2 : cls) (prev : option char) (a : char) (s : str) :
  match_at (Regex false [One true k1; One true k2]) prev (a :: s) =
  match s with
  | b :: _ =>
      if in_cls k1 a && in_cls k2 b then Some ([[a]; [b]], 2) else None
  | [] => None
  end.
Proof.
  unfold match_at. cbn [word_boundary atoms andb match_atoms].
  destruct (in_cls k1 a); destruct s as [ | b s ]; try reflexivity.
  cbn [andb]. destruct (in_cls k2 b); reflexivity.
Qed.

Lemma spaced_head (k1 k2 : cls) (b : char) (s : str) :
  in_cls k1 b = false -> spaced k1 k2 (b :: s) = b :: spaced k1 k2 s.
Proof. intros H. cbn [spaced]. rewrite H. destruct s; reflexivity. Qed.

(** Two captured one-character classes with a space put between them, where
    a character of the second class is never one of the first. *)
Lemma sub_go_spaced (k1 k2 : cls) (s : str) :
  (forall c, in_cls k2 c = true -> in_cls k1 c = false) ->
  forall prev,
    sub_go (Regex false [One true k1; One true k2])
      [TGroup 1; TChr space; TGroup 2] prev O s
    = spaced k1 k2 s.
Proof.
  intros Hk.
  set (p := Regex false [One true k1; One true k2]).
  set (t := [TGroup 1; TChr space; TGroup 2]).
  assert (G : forall s,
             (forall prev, sub_go p t prev O s = spaced k1 k2 s)
             /\ (forall a prev,
                    sub_go p t prev O (a :: s) = spaced k1 k2 (a :: s))).
  { clear s. induction s as [ | b s [IH0 IH1] ].
    - split; [ reflexivity | ]. intros a prev.
      rewrite sub_go_step. unfold p. rewrite match_at_pair. reflexivity.
    - split; [ exact (IH1 b) | ]. intros a prev.
      rewrite sub_go_step. unfold p at 1. rewrite match_at_pair.
      change (spaced k1 k2 (a :: b :: s))
        with (if in_cls k1 a && in_cls k2 b
              then a :: space :: spaced k1 k2 (b :: s)
              else a :: spaced k1 k2 (b :: s)).
      destruct (in_cls k1 a && in_cls k2 b) eqn:E.
      + apply andb_true_iff in E. destruct E as [_ B].
        rewrite sub_go_skip, IH0, (spaced_head _ _ _ _ (Hk b B)).
        reflexivity.
      + rewrite IH1. reflexivity. }
  intros prev. apply G.
Qed.

Lemma star_space (s : str) :
  star Space (match_atoms []) s = Some ([], indent s).
Proof.
  induction s as [ | c s IH ]; [ reflexivity | ].
  cbn [star indent in_cls]. destruct (isspace c); [ | reflexivity ].
  rewrite IH. reflexivity.
Qed.

Lemma match_at_spaces (prev : option char) (c : char) (s : str) :
  match_at (Regex false [Plus Space]) prev (c :: s) =
  if isspace c then Some ([], S (indent s)) else None.
Proof.
  unfold match_at. cbn [word_boundary atoms andb match_atoms in_cls].
  rewrite star_space. reflexivity.
Qed.

(** [\s+] replaced by one space. *)
Lemma sub_go_collapse (s : str) :
  forall prev,
    sub_go (Regex false [Plus Space]) [TChr space] prev O s
    = collapse false s
    /\ sub_go (Regex false [Plus Space]) [TChr space] prev (indent s) s
       = collapse true s.
Proof.
  induction s as [ | c s IH ]; intros prev.
  - split; reflexivity.
  - assert (E0 : sub_go (Regex false [Plus Space]) [TChr space] prev O
                   (c :: s) = collapse false (c :: s)).
    { rewrite sub_go_step, match_at_spaces. cbn [collapse].
      destruct (isspace c).
      - cbn [expand app]. f_equal. apply IH.
      - f_equal. apply IH. }
    split; [ exact E0 | ].
    cbn [indent collapse]. destruct (isspace c) eqn:C.
    + rewrite sub_go_skip. apply IH.
    + rewrite E0. cbn [collapse]. rewrite C. reflexivity.
Qed.

Lemma template_ok_text (p : regex) (r : str) :
  template_ok p (map TChr r) = true.
Proof. unfold template_ok. induction r; simpl; auto. Qed.

Lemma re_sub_char (pattern repl : string) (x : char) (s : str) :
  parse_regex (ustr pattern) = Some (Regex false [One false (Chr x)]) ->
  parse_template (ustr repl) = Some (map TChr (ustr repl)) ->
  re_sub pattern repl s =
  Ret (flat_map (fun c => if (c =? x)%N then ustr repl else [c]) s).
Proof.
  intros Hp Ht.
  rewrite (re_sub_parsed pattern repl _ _ s Hp Ht (template_ok_text _ _)).
  rewrite sub_go_char. reflexivity.
Qed.

Lemma flat_map_fixed (h : char -> str) (s : str) :
  Forall (fun c => h c = [c]) s -> flat_map h s = s.
Proof.
  induction 1 as [ | c s Hc _ IH ]; [ reflexivity | ].
  simpl. rewrite Hc, IH. reflexivity.
Qed.

(** ** [_postprocess] *)

Lemma postprocess_closed (s : str) :
  _postprocess s =
  Ret (flat_map (fun c => if (c =? chr "x")%N then ustr "ch" else [c])
         (flat_map (fun c => if (c =? chr "ɮ")%N then ustr "ʒʒ" else [c])
            s)).
Proof.
  unfold _postprocess. cbn [re_subs sub].
  rewrite (re_sub_char "ɮ" "ʒʒ" (chr "ɮ")) by reflexivity. cbn [bind].
  rewrite (re_sub_char "x" "ch" (chr "x")) by reflexivity. reflexivity.
Qed.

(** [_postprocess] leaves neither of the two internal symbols behind. *)
Lemma postprocess_clean (s out : str) :
  _postprocess s = Ret out ->
  Forall (fun c => (c =? chr "x")%N = false /\ (c =? chr "ɮ")%N = false) out.
Proof.
  rewrite postprocess_closed. intros H. injection H as <-.
  apply Forall_flat_map. apply Forall_flat_map.
  apply Forall_forall. intros c _.
  destruct (c =? chr "ɮ")%N eqn:E1.
  - repeat constructor.
  - constructor; [ | constructor ].
    destruct (c =? chr "x")%N eqn:E2.
    + repeat constructor.
    + constructor; [ | constructor ]. split; assumption.
Qed.

(** C8. [_postprocess] returns on every string, and applied to what it
    returned it returns the same string. *)
Theorem postprocess_idempotent (s : str) :
  exists out, _postprocess s = Ret out /\ _postprocess out = Ret out.
Proof.
  destruct (_postprocess s) as [ out | e ] eqn:E;
    [ | rewrite postprocess_closed in E; discriminate ].
  exists out. split; [ reflexivity | ].
  apply postprocess_clean in E. rewrite postprocess_closed.
  rewrite (flat_map_fixed _ out).
  - rewrite (flat_map_fixed _ out); [ reflexivity | ].
    eapply Forall_impl; [ | exact E ]. intros c [H _]. now rewrite H.
  - eapply Forall_impl; [ | exact E ]. intros c [_ H]. now rewrite H.
Qed.

End Engine.

(** ** [normalize] *)

Section Normalize.
Context {U : Unicode} {L : UnicodeLaws U}.

Lemma spaced_cons2 (k1 k2 : cls) (a b : char) (s : str) :
  spaced k1 k2 (a :: b :: s) =
  if in_cls k1 a && in_cls k2 b
  then a :: space :: spaced k1 k2 (b :: s)
  else a :: spaced k1 k2 (b :: s).
Proof. reflexivity. Qed.

Lemma spaced_cons_tl (k1 k2 : cls) (b : char) (r : str) :
  spaced k1 k2 (b :: r) = b :: tl (spaced k1 k2 (b :: r)).
Proof.
  destruct r as [ | c r ]; [ reflexivity | ].
  rewrite spaced_cons2. destruct (in_cls k1 b && in_cls k2 c); reflexivity.
Qed.

(** The first two substitutions together put a space wherever a word
    character and a non-word character meet. *)
Lemma spaced_twice (a b : char) (r : str) :
  spaced NonWord Word (spaced Word NonWord (a :: b :: r)) =
  if xorb (isword a) (isword b)
  then a :: space :: spaced NonWord Word (spaced Word NonWord (b :: r))
  else a :: spaced NonWord Word (spaced Word NonWord (b :: r)).
Proof.
  rewrite (spaced_cons2 Word NonWord).
  rewrite (spaced_cons_tl Word NonWord b r).
  set (X := tl (spaced Word NonWord (b :: r))).
  cbn [in_cls].
  destruct (isword a) eqn:A, (isword b) eqn:B; cbn [andb negb xorb];
    rewrite !spaced_cons2; cbn [in_cls]; rewrite ?A, ?B;
    cbn [andb negb]; rewrite ?andb_false_r; reflexivity.
Qed.

Lemma collapse_space (s : str) : collapse true (space :: s) = collapse true s.
Proof. cbn [collapse]. now rewrite space_is_space. Qed.

Lemma tokens_cons (inrun : bool) (a : char) (s : str) :
  tokens inrun (a :: s) =
  if isspace a then
    if inrun then tokens true s else space :: tokens true s
  else if match s with
          | b :: _ => xorb (isword a) (isword b)
          | [] => false
          end
       then a :: space :: tokens true s
       else a :: tokens false s.
Proof. reflexivity. Qed.

Lemma collapse_cons (inrun : bool) (c : char) (s : str) :
  collapse inrun (c :: s) =
  if isspace c then
    if inrun then collapse true s else space :: collapse true s
  else c :: collapse false s.
Proof. reflexivity. Qed.

Lemma collapse_tokens (u : str) (inrun : bool) :
  collapse inrun (spaced NonWord Word (spaced Word NonWord u))
  = tokens inrun u.
Proof.
  revert inrun. induction u as [ | a u IH ]; intros inrun; [ reflexivity | ].
  destruct u as [ | b r ].
  - cbn [spaced collapse tokens]. destruct (isspace a); reflexivity.
  - rewrite spaced_twice, tokens_cons.
    destruct (xorb (isword a) (isword b));
      rewrite !collapse_cons, ?space_is_space, !IH;
      destruct (isspace a); reflexivity.
Qed.

(** [normalize] in closed form. *)
Lemma normalize_closed (s : str) :
  normalize s = Ret (strip (tokens false (casefold s))).
Proof.
  unfold normalize. cbn [re_subs sub].
  rewrite (re_sub_parsed "(\w)(\W)" "\1 \2"
             (Regex false [One true Word; One true NonWord])
             [TGroup 1; TChr space; TGroup 2]) by reflexivity.
  rewrite sub_go_spaced
    by (cbn [in_cls]; intros c H; now apply negb_true_iff in H).
  cbn [bind].
  rewrite (re_sub_parsed "(\W)(\w)" "\1 \2"
             (Regex false [One true NonWord; One true Word])
             [TGroup 1; TChr space; TGroup 2]) by reflexivity.
  rewrite sub_go_spaced by (cbn [in_cls]; intros c H; now rewrite H).
  cbn [bind].
  rewrite (re_sub_parsed "\s+" " " (Regex false [Plus Space]) [TChr space])
    by reflexivity.
  rewrite (proj1 (sub_go_collapse _ None)). cbn [bind].
  rewrite collapse_tokens. reflexivity.
Qed.

(** *** What [tokens] produces is tidy, and tidy strings are left alone *)

Lemma tokens_true_head (u : str) :
  match tokens true u with
  | x :: _ => isspace x = false
  | [] => True
  end.
Proof.
  induction u as [ | a u IH ]; [ exact I | ].
  cbn [tokens]. destruct (isspace a) eqn:A; [ exact IH | ].
  destruct (match u with b :: _ => xorb (isword a) (isword b) | [] => false end);
    exact A.
Qed.

Lemma tidy_cons (a : char) (s : str) :
  tidy (a :: s) =
  (negb (isspace a) || (a =? space)%N)
  && match s with b :: _ => tidy_pair a b | [] => true end
  && tidy s.
Proof. reflexivity. Qed.

Lemma tidy_space_tokens (u : str) :
  tidy (tokens true u) = true -> tidy (space :: tokens true u) = true.
Proof.
  intros H. rewrite tidy_cons, H, N.eqb_refl, orb_true_r.
  pose proof (tokens_true_head u) as Hh.
  destruct (tokens true u) as [ | x r ]; [ reflexivity | ].
  unfold tidy_pair. rewrite space_is_space, Hh. reflexivity.
Qed.

Lemma tokens_false_head (a b : char) (r : str) :
  isspace a = false ->
  xorb (isword a) (isword b) = false ->
  match tokens false (b :: r) with
  | x :: _ => tidy_pair a x = true
  | [] => True
  end.
Proof.
  intros A X. cbn [tokens]. unfold tidy_pair. rewrite A.
  destruct (isspace b) eqn:B.
  - now rewrite space_is_space.
  - assert (E : Bool.eqb (isword a) (isword b) = true)
      by (destruct (isword a), (isword b); simpl in *; congruence).
    destruct (match r with c :: _ => xorb (isword b) (isword c) | [] => false end);
      now rewrite B, E.
Qed.

Lemma tokens_tidy (u : str) (inrun : bool) : tidy (tokens inrun u) = true.
Proof.
  revert inrun. induction u as [ | a u IH ]; intros inrun; [ reflexivity | ].
  rewrite tokens_cons. destruct (isspace a) eqn:A.
  - destruct inrun; [ apply IH | apply tidy_space_tokens, IH ].
  - destruct u as [ | b r ].
    + cbn [tokens tidy]. now rewrite A.
    + destruct (xorb (isword a) (isword b)) eqn:X.
      * rewrite tidy_cons, A, tidy_space_tokens by apply IH.
        unfold tidy_pair. now rewrite A, space_is_space.
      * rewrite tidy_cons, A, IH.
        pose proof (tokens_false_head a b r A X) as Hh.
        destruct (tokens false (b :: r)); [ reflexivity | ].
        now rewrite Hh.
Qed.

Lemma tidy_inv (a : char) (s : str) :
  tidy (a :: s) = true ->
  (isspace a = true -> a = space)
  /\ match s with b :: _ => tidy_pair a b = true | [] => True end
  /\ tidy s = true.
Proof.
  rewrite tidy_cons. intros H.
  apply andb_true_iff in H. destruct H as [H H3].
  apply andb_true_iff in H. destruct H as [H1 H2].
  repeat split; [ | destruct s; [ exact I | exact H2 ] | exact H3 ].
  intros A. rewrite A in H1. simpl in H1. now apply N.eqb_eq.
Qed.

Lemma tokens_flag (b : char) (r : str) :
  isspace b = false -> tokens true (b :: r) = tokens false (b :: r).
Proof. intros B. cbn [tokens]. now rewrite B. Qed.

Lemma tidy_tokens (t : str) : tidy t = true -> tokens false t = t.
Proof.
  induction t as [ | a t IH ]; [ reflexivity | ]. intros H.
  apply tidy_inv in H. destruct H as (Ha & Hp & Ht).
  specialize (IH Ht). cbn [tokens].
  destruct (isspace a) eqn:A.
  - rewrite (Ha eq_refl). f_equal.
    destruct t as [ | b r ]; [ reflexivity | ].
    unfold tidy_pair in Hp. rewrite A in Hp. apply negb_true_iff in Hp.
    rewrite tokens_flag by assumption. exact IH.
  - destruct t as [ | b r ]; [ reflexivity | ].
    unfold tidy_pair in Hp. rewrite A in Hp.
    destruct (isspace b) eqn:B.
    + rewrite (space_not_word b B), xorb_false_r.
      destruct (isword a); [ | now rewrite IH ].
      f_equal. cbn [tokens] in IH |- *. rewrite B in IH |- *. exact IH.
    + simpl in Hp.
      assert (X : xorb (isword a) (isword b) = false)
        by (destruct (isword a), (isword b); simpl in *; congruence).
      rewrite X, IH. reflexivity.
Qed.

(** *** [strip] *)

Lemma tidy_tail (a : char) (s : str) : tidy (a :: s) = true -> tidy s = true.
Proof. intros H. now apply tidy_inv in H. Qed.

Lemma lstrip_tidy (s : str) : tidy s = true -> tidy (lstrip s) = true.
Proof.
  induction s as [ | a s IH ]; [ reflexivity | ]. intros H.
  cbn [lstrip]. destruct (isspace a); [ | exact H ].
  apply IH. now apply tidy_tail in H.
Qed.

Lemma rstrip_head (s : str) (x : char) (r : str) :
  rstrip s = x :: r -> exists r0, s = x :: r0.
Proof.
  destruct s as [ | a s ]; [ discriminate | ]. cbn [rstrip].
  destruct (rstrip s).
  - destruct (isspace a); [ discriminate | ].
    intros H. injection H as -> _. eauto.
  - intros H. injection H as -> _. eauto.
Qed.

Lemma rstrip_tidy (s : str) : tidy s = true -> tidy (rstrip s) = true.
Proof.
  induction s as [ | a s IH ]; [ reflexivity | ]. intros H.
  pose proof (tidy_inv _ _ H) as (Ha & Hp & Ht). specialize (IH Ht).
  cbn [rstrip]. destruct (rstrip s) as [ | x r ] eqn:R.
  - destruct (isspace a) eqn:A; [ reflexivity | ].
    cbn [tidy]. now rewrite A.
  - destruct (rstrip_head _ _ _ R) as [r0 ->].
    rewrite tidy_cons, IH, Hp, andb_true_r, andb_true_r.
    rewrite tidy_cons in H. apply andb_true_iff in H. destruct H as [H _].
    apply andb_true_iff in H. now destruct H as [H _].
Qed.

Lemma strip_tidy (s : str) : tidy s = true -> tidy (strip s) = true.
Proof. intros H. now apply rstrip_tidy, lstrip_tidy. Qed.

Lemma lstrip_head (s : str) :
  match lstrip s with x :: _ => isspace x = false | [] => True end.
Proof.
  induction s as [ | a s IH ]; [ exact I | ].
  cbn [lstrip]. destruct (isspace a) eqn:A; [ exact IH | exact A ].
Qed.

Lemma rstrip_idempotent (s : str) : rstrip (rstrip s) = rstrip s.
Proof.
  induction s as [ | a s IH ]; [ reflexivity | ].
  cbn [rstrip]. destruct (rstrip s) as [ | x r ] eqn:R.
  - destruct (isspace a) eqn:A; [ reflexivity | ].
    cbn [rstrip]. now rewrite A.
  - change (rstrip (a :: x :: r))
      with (match rstrip (x :: r) with
            | [] => if isspace a then [] else [a]
            | r' => a :: r'
            end).
    rewrite IH. reflexivity.
Qed.

Lemma strip_idempotent (s : str) : strip (strip s) = strip s.
Proof.
  unfold strip. pose proof (lstrip_head s) as H.
  destruct (rstrip (lstrip s)) as [ | x r ] eqn:R; [ reflexivity | ].
  destruct (rstrip_head _ _ _ R) as [r0 E]. rewrite E in H.
  cbn [lstrip]. rewrite H, <- R. apply rstrip_idempotent.
Qed.

Lemma lstrip_Forall (P : char -> Prop) (s : str) :
  Forall P s -> Forall P (lstrip s).
Proof.
  induction 1 as [ | a s Ha Hs IH ]; [ constructor | ].
  cbn [lstrip]. destruct (isspace a); [ exact IH | now constructor ].
Qed.

Lemma rstrip_Forall (P : char -> Prop) (s : str) :
  Forall P s -> Forall P (rstrip s).
Proof.
  induction 1 as [ | a s Ha Hs IH ]; [ constructor | ].
  cbn [rstrip]. destruct (rstrip s).
  - destruct (isspace a); repeat constructor; assumption.
  - now constructor.
Qed.

Lemma tokens_Forall (P : char -> Prop) (s : str) (inrun : bool) :
  P space -> Forall P s -> Forall P (tokens inrun s).
Proof.
  intros Hs H. revert inrun.
  induction H as [ | a s Ha _ IH ]; intros inrun; [ constructor | ].
  cbn [tokens]. destruct (isspace a).
  - destruct inrun; [ apply IH | constructor; [ exact Hs | apply IH ] ].
  - destruct (match s with b :: _ => xorb (isword a) (isword b) | [] => false end);
      repeat (constructor; try assumption); apply IH.
Qed.

(** *** Case folding *)

Lemma casefold_folded (s : str) :
  Forall (fun c => casefold_char c = [c]) (casefold s).
Proof.
  unfold casefold. apply Forall_flat_map, Forall_forall. intros c _.
  apply Forall_forall. intros d Hd. exact (casefold_stable c d Hd).
Qed.

Lemma normalize_normal (t : str) :
  Forall (fun c => casefold_char c = [c]) t ->
  tidy t = true ->
  strip t = t ->
  normalize t = Ret t.
Proof.
  intros F T S. rewrite normalize_closed. unfold casefold.
  rewrite (flat_map_fixed _ t F), (tidy_tokens t T), S. reflexivity.
Qed.

(** C9. [normalize] returns on every string, and applied to what it returned
    it returns the same string. *)
Theorem normalize_idempotent (s : str) :
  exists t, normalize s = Ret t /\ normalize t = Ret t.
Proof.
  exists (strip (tokens false (casefold s))).
  split; [ apply normalize_closed | ].
  apply normalize_normal.
  - apply rstrip_Forall, lstrip_Forall, tokens_Forall;
      [ apply casefold_space | apply casefold_folded ].
  - apply strip_tidy, tokens_tidy.
  - apply strip_idempotent.
Qed.

End Normalize.

(** ** The Latin tables satisfy the laws *)

Lemma lookup_In (c : char) (table : list (char * str)) (v : str) :
  lookup c table = Some v -> In (c, v) table.
Proof.
  induction table as [ | [k w] table IH ]; [ discriminate | ].
  cbn [lookup]. destruct (k =? c)%N eqn:E.
  - apply N.eqb_eq in E. intros H. injection H as ->. subst. now left.
  - intros H. right. now apply IH.
Qed.

Lemma folding_folded :
  forallb (fun e => forallb (fun d => match lookup d folding with
                                      | None => true
                                      | Some _ => false
                                      end) (snd e)) folding = true.
Proof. vm_compute. reflexivity. Qed.

Lemma latin_laws : UnicodeLaws latin.
Proof.
  split.
  - intros c d. cbn [casefold_char latin].
    destruct (lookup c folding) as [ f | ] eqn:E.
    + intros Hd. apply lookup_In in E.
      pose proof folding_folded as H.
      rewrite forallb_forall in H. specialize (H _ E). cbn [snd] in H.
      rewrite forallb_forall in H. specialize (H _ Hd).
      destruct (lookup d folding); [ discriminate | reflexivity ].
    + intros [ <- | [] ]. now rewrite E.
  - reflexivity.
  - reflexivity.
  - intros c. cbn [isspace isword latin]. intros H.
    each_member H; reflexivity.
Qed.

Lemma normalize_idempotent_witness :
  exists t, @normalize latin (ustr "  Vítr , SKÁLY a (moře)!  ") = Ret t
            /\ @normalize latin t = Ret t.
Proof. apply (@normalize_idempotent latin latin_laws). Defined.

(** ** The reference sentence *)

Section Reference.
Context {U : Unicode} {L : UnicodeLaws U}.

Lemma sub_go_never (p : regex) (t : template) (s : str) :
  never (atoms p) s = true -> forall prev, sub_go p t prev O s = s.
Proof.
  induction s as [ | c s IH ]; intros H prev.
  - cbn [never] in H. cbn [sub_go]. unfold match_at.
    destruct (match_atoms (atoms p) []); [ discriminate | ].
    destruct (word_boundary p && _); reflexivity.
  - cbn [never] in H. apply andb_true_iff in H. destruct H as [H1 H2].
    rewrite sub_go_step. unfold match_at.
    destruct (match_atoms (atoms p) (c :: s)); [ discriminate | ].
    rewrite IH by assumption.
    destruct (word_boundary p && _); reflexivity.
Qed.

Lemma re_subs_noop (rules : list rule) (s : str) :
  forallb (noop_rule s) rules = true -> re_subs rules s = Ret s.
Proof.
  induction rules as [ | [pattern repl] rules IH ]; [ reflexivity | ].
  cbn [forallb]. intros H. apply andb_true_iff in H. destruct H as [H1 H2].
  unfold noop_rule in H1. cbn [fst snd] in H1.
  destruct (parse_regex (ustr pattern)) as [ p | ] eqn:P; [ | discriminate ].
  destruct (parse_template (ustr repl)) as [ t | ] eqn:T; [ | discriminate ].
  apply andb_true_iff in H1. destruct H1 as [Hok Hn].
  cbn [re_subs]. rewrite (re_sub_parsed _ _ _ _ s P T Hok).
  rewrite sub_go_never by assumption. cbn [bind]. now apply IH.
Qed.

Lemma word_not_space (c : char) : isword c = true -> isspace c = false.
Proof.
  intros W. destruct (isspace c) eqn:S; [ | reflexivity ].
  rewrite (space_not_word c S) in W. discriminate.
Qed.

Lemma not_space (c : char) : isspace c = false -> (c =? space)%N = false.
Proof.
  intros S. apply N.eqb_neq. intros ->. rewrite space_is_space in S.
  discriminate.
Qed.

(** Words separated by single spaces are tidy. *)
Lemma words_tidy (s : str) :
  (forall c, In c s -> c <> space -> isword c = true) ->
  single_spaced s = true ->
  tidy s = true.
Proof.
  induction s as [ | a s IH ]; [ reflexivity | ]. intros Hw Hs.
  cbn [single_spaced] in Hs. apply andb_true_iff in Hs.
  destruct Hs as [Hab Hs].
  assert (T : tidy s = true).
  { apply IH; [ | exact Hs ]. intros c Hin. apply Hw. now right. }
  rewrite tidy_cons, T, andb_true_r.
  assert (Hc : forall c, In c (a :: s) -> (c =? space)%N = false ->
                         isword c = true /\ isspace c = false).
  { intros c Hin Hc. apply N.eqb_neq in Hc.
    split; [ | apply word_not_space ]; now apply Hw. }
  apply andb_true_iff. split.
  - destruct (a =? space)%N eqn:A; [ apply orb_true_r | ].
    destruct (Hc a (or_introl eq_refl) A) as [_ ->]. reflexivity.
  - destruct s as [ | b r ]; [ reflexivity | ]. unfold tidy_pair.
    destruct (a =? space)%N eqn:A.
    + apply N.eqb_eq in A. subst a. rewrite space_is_space.
      cbn [andb] in Hab.
      apply negb_true_iff in Hab.
      destruct (Hc b (or_intror (or_introl eq_refl)) Hab) as [_ ->].
      reflexivity.
    + destruct (Hc a (or_introl eq_refl) A) as [Wa ->].
      destruct (b =? space)%N eqn:B.
      * apply N.eqb_eq in B. subst b. now rewrite space_is_space.
      * destruct (Hc b (or_intror (or_introl eq_refl)) B) as [Wb ->].
        now rewrite Wa, Wb.
Qed.

Lemma rstrip_fixed (s : str) (d : char) :
  isspace d = false -> rstrip (s ++ [d]) = s ++ [d].
Proof.
  intros D. induction s as [ | a s IH ].
  - cbn [app rstrip]. now rewrite D.
  - cbn [app rstrip]. rewrite IH. destruct (s ++ [d]) eqn:E; [ | reflexivity ].
    destruct s; discriminate.
Qed.

Lemma strip_fixed (c d : char) (s : str) :
  isspace c = false -> isspace d = false ->
  strip (c :: s ++ [d]) = c :: s ++ [d].
Proof.
  intros C D. unfold strip. cbn [lstrip]. rewrite C.
  exact (rstrip_fixed (c :: s) d D).
Qed.

(** C1. The sentence of the reference test is transcribed as the test
    expects, for any Unicode tables in which its letters are word characters
    that case folding leaves alone. *)
Theorem test_complex :
  (forall c, In c (ustr "hřích by za ty choutky stál leč dobře") ->
             c <> space -> isword c = true /\ casefold_char c = [c]) ->
  _transcribe (ustr "hřích by za ty choutky stál leč dobře")
  = Ret (ustr "hříɣ bi za ti choutki stál leʒʒ dobře").
Proof.
  intros H. unfold _transcribe.
  set (ort := ustr "hřích by za ty choutky stál leč dobře") in *.
  assert (N : normalize ort = Ret ort).
  { apply normalize_normal.
    - apply Forall_forall. intros c Hc.
      destruct (N.eq_dec c space) as [ -> | Hs ];
        [ apply casefold_space | now apply H ].
    - apply words_tidy; [ intros c Hc Hs; now apply H | reflexivity ].
    - change ort
        with (chr "h" :: ustr "řích by za ty choutky stál leč dobř"
                ++ [chr "e"]).
      apply strip_fixed; apply word_not_space, H;
        solve [ discriminate | vm_compute; tauto ]. }
  rewrite N. cbn [bind].
  assert (I : _init_scp ort = Ret ort)
    by (apply re_subs_noop; vm_compute; reflexivity).
  rewrite I. cbn [bind]. vm_compute. reflexivity.
Qed.

End Reference.

Lemma test_complex_witness :
  @_transcribe latin (ustr "hřích by za ty choutky stál leč dobře")
  = Ret (ustr "hříɣ bi za ti choutki stál leʒʒ dobře").
Proof.
  apply (@test_complex latin latin_laws).
  intros c H Hs. vm_compute in H.
  repeat (destruct H as [ H | H ];
          [ subst; first [ now elim Hs | split; reflexivity ] | ]).
  contradiction.
Defined.

(** ** Totality *)

Section Totality.
Context {U : Unicode}.

Lemma re_subs_total (rules : list rule) :
  forallb rule_ok rules = true -> total (re_subs rules).
Proof.
  induction rules as [ | [pattern repl] rules IH ]; intros H s.
  - exists s. reflexivity.
  - cbn [forallb] in H. apply andb_true_iff in H. destruct H as [H1 H2].
    unfold rule_ok in H1. cbn [fst snd] in H1.
    destruct (parse_regex (ustr pattern)) as [ p | ] eqn:P;
      [ | discriminate ].
    destruct (parse_template (ustr repl)) as [ t | ] eqn:T;
      [ | discriminate ].
    cbn [re_subs]. rewrite (re_sub_parsed _ _ _ _ s P T H1). cbn [bind].
    apply (IH H2).
Qed.

Lemma normalize_total : total normalize.
Proof.
  intros s. unfold normalize.
  destruct (re_subs_total
              [sub "(\w)(\W)" "\1 \2"; sub "(\W)(\w)" "\1 \2"; sub "\s+" " "]
              eq_refl (casefold s)) as [out ->].
  cbn [bind]. eauto.
Qed.

(** C5, as the claim states it, fails: [_voicing_assim] raises [IndexError]
    on a string that ends in a space. *)
Lemma voicing_assim_not_total :
  _voicing_assim (ustr "a ") = Raise IndexError
  /\ ~ total _voicing_assim.
Proof.
  split; [ reflexivity | ]. intros H.
  destruct (H (ustr "a ")) as [out E]. discriminate E.
Qed.

(** C5, amended.  Every stage other than [_voicing_assim] returns a string
    on every string; [_voicing_assim] returns a string on every string that
    does not end in a space, and raises [IndexError] on every string that
    does; every stage maps the empty string to the empty string. *)
Theorem stages_total :
  Forall (fun stage => total stage /\ stage [] = Ret [])
    [ normalize; _init_scp; _foreign; _collapse_expand; _ě; _i_í;
      _unify; _hiatus; _heuristic; _postprocess ]
  /\ (forall s, exists out,
         _voicing_assim s =
         if ends_with_space s then Raise IndexError else Ret out)
  /\ _voicing_assim [] = Ret [].
Proof.
  split; [ | split ].
  - repeat (apply Forall_cons || apply Forall_nil);
      (split; [ | vm_compute; reflexivity ]);
      first [ apply normalize_total
            | apply re_subs_total; vm_compute; reflexivity ].
  - intros s. exists (assimilated s). apply voicing_assim_spec.
  - reflexivity.
Qed.

End Totality.

(** ** The pipeline never reaches the failure of [_voicing_assim]

    [normalize] strips its result, and the stages before [_voicing_assim]
    never put a space at the end of a string. *)

Section Pipeline.
Context {U : Unicode} {L : UnicodeLaws U}.

Lemma ends_with_space_tail (c : char) (s : str) :
  ends_with_space s = true -> ends_with_space (c :: s) = true.
Proof. destruct s; [ discriminate | auto ]. Qed.

Lemma star_groups (k : cls) (m : str -> option (list str * nat)) (s : str)
  (gs : list str) (n : nat) :
  star k m s = Some (gs, n) -> exists s' n', m s' = Some (gs, n').
Proof.
  revert gs n. induction s as [ | c s IH ]; intros gs n; cbn [star].
  - eauto.
  - destruct (in_cls k c); [ | eauto ].
    destruct (star k m s) as [ [gs' n'] | ] eqn:E; [ | eauto ].
    intros H. injection H as <- _. eapply IH. reflexivity.
Qed.

(** Each captured group is one character of its class. *)
Lemma match_atoms_groups (l : list atom) (s : str) (gs : list str) (n : nat) :
  match_atoms l s = Some (gs, n) ->
  Forall2 (fun k g => exists c, g = [c] /\ in_cls k c = true)
    (capture_classes l) gs.
Proof.
  revert s gs n. induction l as [ | a l IH ]; intros s gs n.
  - intros H. injection H as <- _. constructor.
  - destruct a as [ capture k | k | k ]; cbn [match_atoms].
    + destruct s as [ | c s ]; [ discriminate | ].
      destruct (in_cls k c) eqn:K; [ | discriminate ].
      destruct (match_atoms l s) as [ [gs' n'] | ] eqn:E; [ | discriminate ].
      intros H. injection H as <- _. apply IH in E.
      destruct capture; [ | exact E ].
      constructor; [ eauto | exact E ].
    + destruct s as [ | c s ]; [ apply IH | ].
      destruct (in_cls k c); [ | apply IH ].
      destruct (match_atoms l s) as [ [gs' n'] | ] eqn:E; [ | apply IH ].
      intros H. injection H as <- _. eapply IH. exact E.
    + destruct s as [ | c s ]; [ discriminate | ].
      destruct (in_cls k c); [ | discriminate ].
      destruct (star k (match_atoms l) s) as [ [gs' n'] | ] eqn:E;
        [ | discriminate ].
      intros H. injection H as <- _.
      apply star_groups in E. destruct E as (s' & n'' & E).
      eapply IH. exact E.
Qed.

Lemma match_at_atoms (p : regex) (prev : option char) (s : str)
  (m : list str * nat) :
  match_at p prev s = Some m -> match_atoms (atoms p) s = Some m.
Proof.
  unfold match_at. destruct (word_boundary p && _); [ discriminate | auto ].
Qed.

Lemma headed_match (p : regex) (prev : option char) (s : str)
  (gs : list str) (n : nat) :
  headed p = true ->
  match_at p prev s = Some (gs, n) -> exists n', n = S n'.
Proof.
  unfold headed. intros H M. apply match_at_atoms in M.
  destruct (atoms p) as [ | [ capture k | k | k ] l ]; try discriminate;
    cbn [match_atoms] in M;
    (destruct s as [ | c s ]; [ discriminate | ]);
    (destruct (in_cls k c); [ | discriminate ]).
  - destruct (match_atoms l s) as [ [gs' n'] | ]; [ | discriminate ].
    injection M as _ <-. eauto.
  - destruct (star k (match_atoms l) s) as [ [gs' n'] | ]; [ | discriminate ].
    injection M as _ <-. eauto.
Qed.

Lemma headed_nil (p : regex) (prev : option char) :
  headed p = true -> match_at p prev [] = None.
Proof.
  intros H. destruct (match_at p prev []) as [ [gs n] | ] eqn:M;
    [ | reflexivity ].
  destruct (headed_match _ _ _ _ _ H M) as [n' ->].
  apply match_at_atoms in M. unfold headed in H.
  destruct (atoms p) as [ | [ capture k | k | k ] l ]; discriminate.
Qed.

Lemma expand_app (t1 t2 : template) (gs : list str) :
  expand (t1 ++ t2) gs = expand t1 gs ++ expand t2 gs.
Proof.
  induction t1 as [ | [ c | n ] t1 IH ]; cbn [app expand];
    [ reflexivity | now rewrite IH | now rewrite IH, app_assoc ].
Qed.

Lemma Forall2_nth_error {A B : Type} (R : A -> B -> Prop) (l1 : list A)
  (l2 : list B) (i : nat) (a : A) :
  Forall2 R l1 l2 -> nth_error l1 i = Some a ->
  exists b, nth_error l2 i = Some b /\ R a b.
Proof.
  intros H. revert i. induction H as [ | x y l1 l2 Hxy _ IH ]; intros i.
  - destruct i; discriminate.
  - destruct i as [ | i ]; cbn [nth_error].
    + intros E. injection E as <-. eauto.
    + apply IH.
Qed.

Lemma excluded_not_space (k : cls) (c : char) :
  excludes_space k = true -> in_cls k c = true -> (c =? space)%N = false.
Proof.
  intros E K. apply N.eqb_neq. intros ->.
  destruct k; cbn [excludes_space in_cls] in *; try discriminate.
  - apply N.eqb_eq in K. subst. rewrite N.eqb_refl in E. discriminate.
  - rewrite K in E. discriminate.
  - rewrite space_is_space in K. discriminate.
Qed.

(** What a rule with a visible ending puts in place of a match. *)
Lemma expand_visible (p : regex) (t : template) (prev : option char)
  (s : str) (gs : list str) (n : nat) :
  ends_visibly p t = true ->
  match_at p prev s = Some (gs, n) ->
  exists pre x, expand t gs = pre ++ [x] /\ (x =? space)%N = false.
Proof.
  unfold ends_visibly. intros V M.
  apply match_at_atoms, match_atoms_groups in M.
  destruct (rev t) as [ | item rt ] eqn:R; [ discriminate | ].
  assert (E : t = rev rt ++ [item])
    by (rewrite <- (rev_involutive t), R; reflexivity).
  rewrite E, expand_app.
  destruct item as [ c | i ]; cbn [expand]; rewrite ?app_nil_r.
  - exists (expand (rev rt) gs), c. split; [ reflexivity | ].
    now apply negb_true_iff.
  - destruct (nth_error (capture_classes (atoms p)) (pred i)) as [ k | ] eqn:K;
      [ | discriminate ].
    destruct (Forall2_nth_error _ _ _ _ _ M K) as (g & G & c & -> & Hc).
    exists (expand (rev rt) gs), c. split.
    + now rewrite (nth_error_nth _ _ _ G).
    + now apply (excluded_not_space k).
Qed.

Section Rule.
Variables (p : regex) (t : template).
Hypothesis Hh : headed p = true.
Hypothesis Hv : ends_visibly p t = true.

Lemma sub_go_nonempty (prev : option char) (c : char) (s : str) :
  sub_go p t prev O (c :: s) <> [].
Proof.
  rewrite sub_go_step.
  destruct (match_at p prev (c :: s)) as [ [gs n] | ] eqn:M;
    [ | discriminate ].
  destruct (expand_visible _ _ _ _ _ _ Hv M) as (pre & x & -> & _).
  destruct n; intros E; apply app_eq_nil in E; destruct E as [E _];
    destruct pre; discriminate.
Qed.

(** A substitution does not bring a space to the end of a string. *)
Lemma sub_go_visible (s : str) :
  forall prev k,
    ends_with_space (sub_go p t prev k s) = true -> ends_with_space s = true.
Proof.
  induction s as [ | c s IH ]; intros prev k H.
  - cbn [sub_go] in H. rewrite (headed_nil _ _ Hh) in H.
    destruct k; discriminate.
  - destruct k as [ | k ].
    + rewrite sub_go_step in H.
      destruct (match_at p prev (c :: s)) as [ [gs n] | ] eqn:M.
      * destruct (headed_match _ _ _ _ _ Hh M) as [n' ->].
        destruct (expand_visible _ _ _ _ _ _ Hv M) as (pre & x & E & X).
        rewrite E in H.
        destruct (sub_go p t (Some c) n' s) as [ | y r ] eqn:R.
        -- rewrite app_nil_r, ends_with_space_app in H by discriminate.
           cbn [ends_with_space] in H. congruence.
        -- rewrite ends_with_space_app in H by discriminate.
           rewrite <- R in H. apply IH in H.
           now apply ends_with_space_tail.
      * destruct s as [ | d s ].
        -- cbn [sub_go] in H. rewrite (headed_nil _ _ Hh) in H. exact H.
        -- destruct (sub_go p t (Some c) O (d :: s)) as [ | y r ] eqn:R;
             [ now apply sub_go_nonempty in R | ].
           rewrite ends_with_space_cons, <- R in H. apply IH in H.
           now apply ends_with_space_tail.
    + rewrite sub_go_skip in H. apply IH in H.
      now apply ends_with_space_tail.
Qed.

End Rule.

Lemma re_subs_visible (rules : list rule) (s : str) :
  forallb visible_rule rules = true ->
  ends_with_space s = false ->
  exists out, re_subs rules s = Ret out /\ ends_with_space out = false.
Proof.
  revert s. induction rules as [ | [pattern repl] rules IH ]; intros s H E.
  - exists s. split; [ reflexivity | exact E ].
  - cbn [forallb] in H. apply andb_true_iff in H. destruct H as [H1 H2].
    unfold visible_rule in H1. cbn [fst snd] in H1.
    destruct (parse_regex (ustr pattern)) as [ p | ] eqn:P;
      [ | discriminate ].
    destruct (parse_template (ustr repl)) as [ t | ] eqn:T;
      [ | discriminate ].
    apply andb_true_iff in H1. destruct H1 as [H1 Hv].
    apply andb_true_iff in H1. destruct H1 as [Hok Hh].
    cbn [re_subs]. rewrite (re_sub_parsed _ _ _ _ s P T Hok). cbn [bind].
    apply (IH _ H2).
    destruct (ends_with_space (sub_go p t None O s)) eqn:X; [ | reflexivity ].
    apply (sub_go_visible p t Hh Hv) in X. congruence.
Qed.

Lemma rstrip_visible (s : str) : ends_with_space (rstrip s) = false.
Proof.
  induction s as [ | a s IH ]; [ reflexivity | ].
  cbn [rstrip]. destruct (rstrip s) as [ | x r ].
  - destruct (isspace a) eqn:A; [ reflexivity | ].
    cbn [ends_with_space]. now apply not_space.
  - rewrite ends_with_space_cons. exact IH.
Qed.

Lemma unify_total : total _unify.
Proof. apply re_subs_total. vm_compute. reflexivity. Qed.

Lemma hiatus_total : total _hiatus.
Proof. apply re_subs_total. vm_compute. reflexivity. Qed.

Lemma heuristic_total : total _heuristic.
Proof. apply re_subs_total. vm_compute. reflexivity. Qed.

Lemma postprocess_total : total _postprocess.
Proof. apply re_subs_total. vm_compute. reflexivity. Qed.

Ltac visible_stage :=
  intros; apply re_subs_visible; [ vm_compute; reflexivity | assumption ].

Lemma init_scp_visible (s : str) :
  ends_with_space s = false ->
  exists out, _init_scp s = Ret out /\ ends_with_space out = false.
Proof. visible_stage. Qed.

Lemma foreign_visible (s : str) :
  ends_with_space s = false ->
  exists out, _foreign s = Ret out /\ ends_with_space out = false.
Proof. visible_stage. Qed.

Lemma collapse_expand_visible (s : str) :
  ends_with_space s = false ->
  exists out, _collapse_expand s = Ret out /\ ends_with_space out = false.
Proof. visible_stage. Qed.

Lemma e_caron_visible (s : str) :
  ends_with_space s = false ->
  exists out, _ě s = Ret out /\ ends_with_space out = false.
Proof. visible_stage. Qed.

Lemma i_acute_visible (s : str) :
  ends_with_space s = false ->
  exists out, _i_í s = Ret out /\ ends_with_space out = false.
Proof. visible_stage. Qed.

(** The pipeline returns on every string. *)
Theorem transcribe_total : total _transcribe.
Proof.
  intros ort. unfold _transcribe.
  rewrite normalize_closed. cbn [bind].
  pose proof (rstrip_visible (lstrip (tokens false (casefold ort)))) as E.
  fold (strip (tokens false (casefold ort))) in E.
  destruct (init_scp_visible _ E) as (s1 & -> & E1). cbn [bind].
  destruct (foreign_visible _ E1) as (s2 & -> & E2). cbn [bind].
  destruct (collapse_expand_visible _ E2) as (s3 & -> & E3). cbn [bind].
  destruct (e_caron_visible _ E3) as (s4 & -> & E4). cbn [bind].
  destruct (i_acute_visible _ E4) as (s5 & -> & E5). cbn [bind].
  rewrite voicing_assim_spec, E5. cbn [bind].
  destruct (unify_total (assimilated s5)) as [s6 ->]. cbn [bind].
  destruct (hiatus_total s6) as [s7 ->]. cbn [bind].
  destruct (heuristic_total s7) as [s8 ->]. cbn [bind].
  apply postprocess_total.
Qed.

(** C10. Construction succeeds on every string; the object it makes is, as
    a string, the argument, its [ort] attribute is the argument, and its
    [fon] attribute is what the pipeline returns for the argument. *)
Theorem construction_preserves_original (s : str) :
  exists t, new s = Ret t
            /\ ort t = s /\ as_str t = s /\ _transcribe s = Ret (fon t).
Proof.
  unfold new. destruct (transcribe_total s) as [f ->]. cbn [bind].
  exists (Build s s f). repeat split.
Qed.

End Pipeline.

Lemma construction_preserves_original_witness :
  exists t, @new latin (ustr "Hrad  byl ") = Ret t
            /\ ort t = ustr "Hrad  byl "
            /\ as_str t = ustr "Hrad  byl "
            /\ @_transcribe latin (ustr "Hrad  byl ") = Ret (fon t).
Proof. apply (@construction_preserves_original latin latin_laws). Defined.

(** * Further properties of the scan of [_voicing_assim] *)

Lemma devoiced_voices (c : char) :
  mem c _devoiced = true ->
  mem (translate c _devoiced2voiced) _voiced = true
  /\ mem (translate c _devoiced2voiced) _devoiced = false
  /\ translate (translate c _devoiced2voiced) _voiced2devoiced = c
  /\ translate c _devoiced2voiced <> space.
Proof.
  intros H. each_member H; vm_compute; repeat split;
    solve [ reflexivity | discriminate ].
Qed.

Lemma triggers_disjoint (p : char) :
  mem p _trigger_voicing = true -> mem p _trigger_devoicing = false.
Proof. intros H. each_member H; reflexivity. Qed.

(** The three cases of [realise], by the class of the character. *)
Lemma realise_voiced (c : char) (r : str) :
  mem c _voiced = true ->
  realise c r =
  match phone r with
  | None => translate c _voiced2devoiced
  | Some p =>
      if starts_with_space r then
        if mem p _trigger_voicing
        then translate (translate c _voiced2devoiced) _devoiced2voiced
        else translate c _voiced2devoiced
      else
        if mem p _trigger_devoicing then translate c _voiced2devoiced else c
  end.
Proof.
  intros V. destruct (voiced_facts c V) as (D1 & V1 & _ & _ & D).
  unfold realise. rewrite V, andb_true_r.
  destruct (starts_with_space r); destruct (phone r) as [ p | ].
  - now rewrite V1, D1, andb_false_r, andb_true_r.
  - now rewrite V1.
  - now rewrite V, D, andb_false_r, andb_true_r.
  - now rewrite V.
Qed.

Lemma realise_devoiced (c : char) (r : str) :
  mem c _devoiced = true ->
  realise c r =
  match phone r with
  | None => c
  | Some p => if mem p _trigger_voicing then translate c _devoiced2voiced else c
  end.
Proof.
  intros D. destruct (devoiced_facts c D) as [V _].
  unfold realise. rewrite V, andb_false_r.
  destruct (phone r) as [ p | ]; rewrite V; [ | reflexivity ].
  now rewrite D, andb_false_r, andb_true_r.
Qed.

Lemma realise_idempotent (c : char) (r : str) :
  realise (realise c r) r = realise c r.
Proof.
  destruct (mem c _voiced) eqn:V.
  - destruct (voiced_facts c V) as (D1 & _).
    destruct (devoiced_voices _ D1) as (V2 & _ & E2 & _).
    rewrite (realise_voiced c r V).
    destruct (phone r) as [ p | ] eqn:P.
    + destruct (starts_with_space r) eqn:S.
      * destruct (mem p _trigger_voicing) eqn:T.
        -- rewrite (realise_voiced _ r V2), P, S, T, E2. reflexivity.
        -- rewrite (realise_devoiced _ r D1), P, T. reflexivity.
      * destruct (mem p _trigger_devoicing) eqn:T.
        -- rewrite (realise_devoiced _ r D1), P.
           destruct (mem p _trigger_voicing) eqn:T'; [ | reflexivity ].
           rewrite (triggers_disjoint p T') in T. discriminate.
        -- rewrite (realise_voiced c r V), P, S, T. reflexivity.
    + rewrite (realise_devoiced _ r D1), P. reflexivity.
  - destruct (mem c _devoiced) eqn:D.
    + destruct (devoiced_voices c D) as (V2 & _ & E2 & _).
      rewrite (realise_devoiced c r D).
      destruct (phone r) as [ p | ] eqn:P.
      * destruct (mem p _trigger_voicing) eqn:T.
        -- rewrite (realise_voiced _ r V2), P, T, E2.
           rewrite (triggers_disjoint p T).
           destruct (starts_with_space r); reflexivity.
        -- rewrite (realise_devoiced c r D), P, T. reflexivity.
      * rewrite (realise_devoiced c r D), P. reflexivity.
    + rewrite (realise_neutral c r V D). apply realise_neutral; assumption.
Qed.

Lemma realise_space (c : char) (r : str) :
  (realise c r =? space)%N = (c =? space)%N.
Proof.
  destruct (mem c _voiced) eqn:V.
  - destruct (voiced_facts c V) as (D1 & _ & H1 & H2 & _).
    destruct (devoiced_voices _ D1) as (_ & _ & _ & H3).
    apply N.eqb_neq in H1, H2, H3.
    rewrite (realise_voiced c r V), H2.
    destruct (phone r) as [ p | ]; [ | exact H1 ].
    destruct (starts_with_space r).
    + destruct (mem p _trigger_voicing); assumption.
    + destruct (mem p _trigger_devoicing); assumption.
  - destruct (mem c _devoiced) eqn:D.
    + destruct (devoiced_facts c D) as [_ H1].
      destruct (devoiced_voices c D) as (_ & _ & _ & H2).
      apply N.eqb_neq in H1, H2.
      rewrite (realise_devoiced c r D), H1.
      destruct (phone r) as [ p | ]; [ | exact H1 ].
      destruct (mem p _trigger_voicing); assumption.
    + now rewrite (realise_neutral c r V D).
Qed.

Lemma assimilated_idempotent (s : str) :
  assimilated (assimilated s) = assimilated s.
Proof.
  induction s as [ | c s IH ]; [ reflexivity | ].
  cbn [assimilated]. rewrite IH, realise_idempotent. reflexivity.
Qed.

Lemma assimilated_ends (s : str) :
  ends_with_space (assimilated s) = ends_with_space s.
Proof.
  induction s as [ | c s IH ]; [ reflexivity | ].
  cbn [assimilated]. destruct s as [ | d s ].
  - cbn [assimilated ends_with_space]. apply realise_space.
  - cbn [assimilated] in *. rewrite !ends_with_space_cons. exact IH.
Qed.

(** X1.  What [_voicing_assim] returns is a fixed point of it: assimilating an
    assimilated string changes nothing. *)
Theorem voicing_assim_idempotent (s out : str) :
  _voicing_assim s = Ret out -> _voicing_assim out = Ret out.
Proof.
  intros R. apply voicing_assim_returns in R. destruct R as [E ->].
  rewrite voicing_assim_spec, assimilated_ends, E, assimilated_idempotent.
  reflexivity.
Qed.

Lemma voicing_assim_idempotent_witness :
  _voicing_assim (ustr "hříɣ by za ty xoutky stál leɮ dobře")
  = Ret (ustr "hříɣ by za ty xoutky stál leɮ dobře").
Proof.
  apply (voicing_assim_idempotent
           (ustr "hříx by za ty xoutky stál leč dobře")).
  reflexivity.
Defined.

(** X2.  [_voicing_assim] moves no word boundary and touches no other symbol: a
    character outside the voiced and devoiced sets is returned as it is, and
    the output has a space exactly where the input has one. *)
Theorem voicing_assim_keeps_neutral (s out : str) :
  _voicing_assim s = Ret out ->
  Forall2 (fun i o =>
             (mem i _voiced || mem i _devoiced = false -> o = i)
             /\ (o =? space)%N = (i =? space)%N) s out.
Proof.
  intros R. apply voicing_assim_returns in R. destruct R as [_ ->].
  induction s as [ | c s IH ]; cbn [assimilated]; constructor;
    [ | exact IH ].
  split; [ | apply realise_space ].
  intros H. apply orb_false_iff in H. destruct H as [V D].
  now apply realise_neutral.
Qed.

Lemma voicing_assim_keeps_neutral_witness :
  Forall2 (fun i o =>
             (mem i _voiced || mem i _devoiced = false -> o = i)
             /\ (o =? space)%N = (i =? space)%N)
    (ustr "leč dobře") (ustr "leɮ dobře").
Proof.
  apply (voicing_assim_keeps_neutral (ustr "leč dobře")). reflexivity.
Defined.

(** X3.  Assimilation inside a cluster: when the character emitted after position
    [i] is not a space, the character emitted at [i] is decided by it alone.
    A voiced character before a devoicing trigger is devoiced, a devoiced
    character before a voicing trigger is voiced, and every other character
    is left as it is. *)
Theorem regressive_assimilation (s out : str) (i : nat) (c p : char) :
  _voicing_assim s = Ret out ->
  nth_error s i = Some c ->
  nth_error out (S i) = Some p ->
  p <> space ->
  nth_error out i =
  Some (if mem p _trigger_devoicing && mem c _voiced
        then translate c _voiced2devoiced
        else if mem p _trigger_voicing && mem c _devoiced
             then translate c _devoiced2voiced
             else c).
Proof.
  intros R Hc Hp Hs.
  apply voicing_assim_returns in R. destruct R as [_ ->].
  apply nth_error_split in Hc. destruct Hc as (l1 & l2 & -> & L).
  destruct (assimilated_app l1 (c :: l2)) as (pre & E & Lp).
  rewrite E in Hp |- *. rewrite <- L, <- Lp in *.
  rewrite nth_error_app2 by lia. rewrite Nat.sub_diag.
  replace (S (length pre)) with (length pre + 1) in Hp by lia.
  rewrite nth_error_app2 in Hp by lia.
  replace (length pre + 1 - length pre) with 1 in Hp by lia.
  cbn [assimilated nth_error] in Hp |- *.
  destruct (assimilated l2) as [ | y r ]; [ discriminate | ].
  injection Hp as ->. f_equal.
  unfold realise. cbn [starts_with_space phone].
  apply N.eqb_neq in Hs. rewrite Hs. cbn [andb]. reflexivity.
Qed.

Lemma regressive_assimilation_witness :
  nth_error (ustr "fcem") 0 = Some (chr "f").
Proof.
  apply (regressive_assimilation (ustr "vcem") (ustr "fcem") 0
           (chr "v") (chr "c"));
    solve [ reflexivity | discriminate ].
Defined.

(** X4.  Assimilation across a word boundary: a character that is not voiced and
    stands before a space is decided by the character emitted after that
    space.  If that one is a voicing trigger and the character is devoiced,
    it is voiced; otherwise it is left as it is. *)
Theorem cross_word_voicing (s out : str) (i : nat) (c p : char) :
  _voicing_assim s = Ret out ->
  nth_error s i = Some c ->
  mem c _voiced = false ->
  nth_error s (S i) = Some space ->
  nth_error out (S (S i)) = Some p ->
  nth_error out i =
  Some (if mem p _trigger_voicing && mem c _devoiced
        then translate c _devoiced2voiced else c).
Proof.
  intros R Hc V Hs Hp.
  apply voicing_assim_returns in R. destruct R as [_ ->].
  apply nth_error_split in Hc. destruct Hc as (l1 & l2 & -> & L).
  assert (Hl2 : exists t, l2 = space :: t).
  { rewrite <- L in Hs.
    replace (S (length l1)) with (length l1 + 1) in Hs by lia.
    rewrite nth_error_app2 in Hs by lia.
    replace (length l1 + 1 - length l1) with 1 in Hs by lia.
    destruct l2; simpl in Hs; [ discriminate | ].
    injection Hs as ->. eauto. }
  destruct Hl2 as [t ->].
  destruct (assimilated_app l1 (c :: space :: t)) as (pre & E & Lp).
  rewrite E in Hp |- *. rewrite <- L, <- Lp in *.
  rewrite nth_error_app2 by lia. rewrite Nat.sub_diag.
  replace (S (S (length pre))) with (length pre + 2) in Hp by lia.
  rewrite nth_error_app2 in Hp by lia.
  replace (length pre + 2 - length pre) with 2 in Hp by lia.
  cbn [assimilated nth_error] in Hp |- *.
  rewrite (realise_neutral space) in * by apply space_neutral.
  destruct (assimilated t) as [ | y r ]; [ discriminate | ].
  injection Hp as ->. f_equal.
  unfold realise. cbn [starts_with_space phone hd_error].
  rewrite N.eqb_refl, V. cbn [andb]. rewrite V, andb_false_r. reflexivity.
Qed.

Lemma cross_word_voicing_witness :
  nth_error (ustr "leɮ dobře") 2 = Some (chr "ɮ").
Proof.
  apply (cross_word_voicing (ustr "leč dobře") (ustr "leɮ dobře") 2
           (chr "č") (chr "d")); reflexivity.
Defined.

(** * Further properties of the rule stages *)

Section Alphabet.
Context {U : Unicode}.

Lemma star_Forall (P : char -> Prop) (k : cls)
  (m : str -> option (list str * nat)) :
  (forall s gs n, Forall P s -> m s = Some (gs, n) -> Forall (Forall P) gs) ->
  forall s gs n,
    Forall P s -> star k m s = Some (gs, n) -> Forall (Forall P) gs.
Proof.
  intros Hm. induction s as [ | c s IH ]; intros gs n F; cbn [star].
  - now apply Hm.
  - destruct (in_cls k c); [ | now apply Hm ].
    destruct (star k m s) as [ [gs' n'] | ] eqn:E; [ | now apply Hm ].
    intros H. injection H as <- _. apply (IH gs' n'); [ | reflexivity ].
    now inversion F.
Qed.

(** The captured groups are made of characters of the string. *)
Lemma match_atoms_Forall (P : char -> Prop) (l : list atom) :
  forall s gs n,
    Forall P s -> match_atoms l s = Some (gs, n) -> Forall (Forall P) gs.
Proof.
  induction l as [ | a l IH ]; intros s gs n F.
  - intros H. injection H as <- _. constructor.
  - destruct a as [ capture k | k | k ]; cbn [match_atoms].
    + destruct s as [ | c s ]; [ discriminate | ].
      destruct (in_cls k c); [ | discriminate ].
      destruct (match_atoms l s) as [ [gs' n'] | ] eqn:E; [ | discriminate ].
      intros H. injection H as <- _. inversion F; subst.
      apply IH in E; [ | assumption ].
      destruct capture; [ | exact E ].
      constructor; [ | exact E ]. now constructor.
    + destruct s as [ | c s ]; [ now apply IH | ].
      destruct (in_cls k c); [ | now apply IH ].
      destruct (match_atoms l s) as [ [gs' n'] | ] eqn:E; [ | now apply IH ].
      intros H. injection H as <- _. inversion F; subst.
      eapply IH; eassumption.
    + destruct s as [ | c s ]; [ discriminate | ].
      destruct (in_cls k c); [ | discriminate ].
      destruct (star k (match_atoms l) s) as [ [gs' n'] | ] eqn:E;
        [ | discriminate ].
      intros H. injection H as <- _. inversion F; subst.
      eapply (star_Forall P k (match_atoms l) IH); eassumption.
Qed.

Lemma nth_Forall (P : char -> Prop) (gs : list str) (i : nat) :
  Forall (Forall P) gs -> Forall P (nth i gs []).
Proof.
  intros H. revert i. induction H as [ | g gs Hg _ IH ]; intros i.
  - destruct i; constructor.
  - destruct i; [ exact Hg | apply IH ].
Qed.

Lemma expand_Forall (P : char -> Prop) (t : template) (gs : list str) :
  literals P t -> Forall (Forall P) gs -> Forall P (expand t gs).
Proof.
  intros Ht Hg. induction Ht as [ | [ c | n ] t Hi _ IH ]; cbn [expand].
  - constructor.
  - now constructor.
  - apply Forall_app. split; [ now apply nth_Forall | exact IH ].
Qed.

(** A substitution writes only characters of its input and of its
    replacement text. *)
Lemma sub_go_Forall (P : char -> Prop) (p : regex) (t : template) :
  literals P t ->
  forall s prev k, Forall P s -> Forall P (sub_go p t prev k s).
Proof.
  intros Ht. induction s as [ | c s IH ]; intros prev k F.
  - cbn [sub_go]. destruct k; [ | constructor ].
    destruct (match_at p prev []) as [ [gs n] | ] eqn:M; [ | constructor ].
    apply match_at_atoms in M.
    apply expand_Forall; [ exact Ht | ].
    eapply match_atoms_Forall; eassumption.
  - destruct k as [ | k ].
    + rewrite sub_go_step.
      assert (Fs : Forall P s) by now inversion F.
      assert (Fc : P c) by now inversion F.
      destruct (match_at p prev (c :: s)) as [ [gs n] | ] eqn:M.
      * apply match_at_atoms in M.
        assert (E : Forall P (expand t gs)).
        { apply expand_Forall; [ exact Ht | ].
          exact (match_atoms_Forall P _ _ _ _ F M). }
        destruct n; apply Forall_app; (split; [ exact E | ]).
        -- constructor; [ exact Fc | now apply IH ].
        -- now apply IH.
      * constructor; [ exact Fc | now apply IH ].
    + rewrite sub_go_skip. apply IH. now inversion F.
Qed.

Lemma avoids_literals (banned : str) (p : regex) (t : template) :
  forallb (fun i => match i with
                    | TChr c => negb (mem c banned)
                    | TGroup _ => true
                    end) t = true ->
  literals (fun c => mem c banned = false) t.
Proof.
  intros H. rewrite forallb_forall in H. apply Forall_forall.
  intros [ c | n ] Hi; [ | exact I ].
  apply H in Hi. now apply negb_true_iff.
Qed.

(** A table of rules whose replacements avoid [banned] keeps a string free
    of [banned]. *)
Lemma re_subs_avoid (banned : str) (rules : list rule) :
  forallb (avoids banned) rules = true ->
  forall s,
    Forall (fun c => mem c banned = false) s ->
    exists out, re_subs rules s = Ret out
                /\ Forall (fun c => mem c banned = false) out.
Proof.
  induction rules as [ | [pattern repl] rules IH ]; intros H s F.
  - exists s. split; [ reflexivity | exact F ].
  - cbn [forallb] in H. apply andb_true_iff in H. destruct H as [H1 H2].
    unfold avoids in H1. cbn [fst snd] in H1.
    destruct (parse_regex (ustr pattern)) as [ p | ] eqn:P;
      [ | discriminate ].
    destruct (parse_template (ustr repl)) as [ t | ] eqn:T;
      [ | discriminate ].
    apply andb_true_iff in H1. destruct H1 as [Hok Hl].
    cbn [re_subs]. rewrite (re_sub_parsed _ _ _ _ s P T Hok). cbn [bind].
    apply (IH H2). apply sub_go_Forall; [ | exact F ].
    now apply (avoids_literals banned p).
Qed.

End Alphabet.

Section Stages.
Context {U : Unicode}.

Lemma re_subs_app (l1 l2 : list rule) (s : str) :
  re_subs (l1 ++ l2) s = (s' <- re_subs l1 s ;; re_subs l2 s').
Proof.
  revert s. induction l1 as [ | [pattern repl] l1 IH ]; intros s;
    [ reflexivity | ].
  cbn [app re_subs]. destruct (re_sub pattern repl s); cbn [bind];
    [ apply IH | reflexivity ].
Qed.

Lemma re_sub_char1 (pattern repl : string) (x y : char) (s : str) :
  parse_regex (ustr pattern) = Some (Regex false [One false (Chr x)]) ->
  parse_template (ustr repl) = Some [TChr y] ->
  re_sub pattern repl s = Ret (map (fun c => if (c =? x)%N then y else c) s).
Proof.
  intros Hp Ht.
  rewrite (re_sub_parsed pattern repl _ _ s Hp Ht eq_refl).
  rewrite (sub_go_char x [y]). f_equal.
  induction s as [ | c s IH ]; [ reflexivity | ].
  cbn [flat_map map]. rewrite IH. destruct (c =? x)%N; reflexivity.
Qed.

(** X6.  [_foreign] replaces each "w" by "v", character by character. *)
Theorem foreign_closed (s : str) : _foreign s = Ret (map foreign_char s).
Proof.
  unfold _foreign. cbn [re_subs sub].
  rewrite (re_sub_char1 "w" "v" (chr "w") (chr "v")) by reflexivity.
  reflexivity.
Qed.

Lemma unify_char_steps (c : char) :
  (fun c => if (c =? chr "ý")%N then chr "í" else c)
    ((fun c => if (c =? chr "y")%N then chr "i" else c)
       ((fun c => if (c =? chr "ů")%N then chr "ú" else c) c))
  = unify_char c.
Proof.
  unfold unify_char. cbv beta.
  destruct (c =? chr "ů")%N; [ reflexivity | ].
  destruct (c =? chr "y")%N; [ reflexivity | ]. reflexivity.
Qed.

(** X7.  [_unify] replaces "ů" by "ú", "y" by "i" and "ý" by "í", character by
    character; it raises on no string and keeps the length. *)
Theorem unify_closed (s : str) : _unify s = Ret (map unify_char s).
Proof.
  unfold _unify. cbn [re_subs sub].
  rewrite (re_sub_char1 "ů" "ú" (chr "ů") (chr "ú")) by reflexivity.
  cbn [bind].
  rewrite (re_sub_char1 "y" "i" (chr "y") (chr "i")) by reflexivity.
  cbn [bind].
  rewrite (re_sub_char1 "ý" "í" (chr "ý") (chr "í")) by reflexivity.
  cbn [bind]. rewrite !map_map. f_equal.
  apply map_ext. exact unify_char_steps.
Qed.

Lemma mem_single (x c : char) : mem x [c] = (c =? x)%N.
Proof. unfold mem. cbn [existsb]. now rewrite orb_false_r, N.eqb_sym. Qed.

Lemma flat_map_removed (x : char) (r s : str) :
  mem x r = false ->
  mem x (flat_map (fun c => if (c =? x)%N then r else [c]) s) = false.
Proof.
  intros Hr. induction s as [ | c s IH ]; [ reflexivity | ].
  cbn [flat_map]. rewrite mem_app, IH, orb_false_r.
  destruct (c =? x)%N eqn:E; [ exact Hr | ]. now rewrite mem_single.
Qed.

(** X8.  [_ě] returns on every string, and what it returns has no "ě" left. *)
Theorem e_caron_eliminated (s : str) :
  exists out, _ě s = Ret out /\ mem (chr "ě") out = false.
Proof.
  unfold _ě.
  change [sub "([bpfv])ě" "\1je"; sub "dě" "ďe"; sub "tě" "ťe";
          sub "ně" "ňe"; sub "mě" "mňe"; sub "ě" "je"]
    with ([sub "([bpfv])ě" "\1je"; sub "dě" "ďe"; sub "tě" "ťe";
           sub "ně" "ňe"; sub "mě" "mňe"] ++ [sub "ě" "je"]).
  rewrite re_subs_app.
  destruct (re_subs_total
              [sub "([bpfv])ě" "\1je"; sub "dě" "ďe"; sub "tě" "ťe";
               sub "ně" "ňe"; sub "mě" "mňe"] eq_refl s) as [s' ->].
  cbn [bind re_subs sub].
  rewrite (re_sub_char "ě" "je" (chr "ě")) by reflexivity. cbn [bind].
  eexists. split; [ reflexivity | ].
  now apply flat_map_removed.
Qed.

Lemma match_at_qu (prev : option char) (c : char) (s : str) :
  match_at (Regex false [One false (Chr (chr "q")); Opt (Chr (chr "u"))])
    prev (c :: s) =
  if (c =? chr "q")%N then
    Some ([], match s with
              | d :: _ => if (d =? chr "u")%N then 2 else 1
              | [] => 1
              end)
  else None.
Proof.
  unfold match_at. cbn [word_boundary atoms andb match_atoms in_cls].
  destruct (c =? chr "q")%N; [ | reflexivity ].
  destruct s as [ | d s ]; [ reflexivity | ].
  destruct (d =? chr "u")%N; reflexivity.
Qed.

Lemma without_q_cons (r : str) (c : char) (s : str) :
  without_q r (c :: s) =
  if (c =? chr "q")%N then
    r ++ match s with
         | d :: s' => if (d =? chr "u")%N then without_q r s'
                      else without_q r s
         | [] => []
         end
  else c :: without_q r s.
Proof. reflexivity. Qed.

(** [qu?] replaced by a fixed text. *)
Lemma sub_go_qu (r : str) (s : str) :
  forall prev,
    sub_go (Regex false [One false (Chr (chr "q")); Opt (Chr (chr "u"))])
      (map TChr r) prev O s
    = without_q r s.
Proof.
  set (p := Regex false [One false (Chr (chr "q")); Opt (Chr (chr "u"))]).
  assert (G : forall s,
             (forall prev, sub_go p (map TChr r) prev O s = without_q r s)
             /\ (forall a prev,
                    sub_go p (map TChr r) prev O (a :: s)
                    = without_q r (a :: s))).
  { clear s. induction s as [ | b s [IH0 IH1] ].
    - split; [ reflexivity | ]. intros a prev.
      rewrite sub_go_step. unfold p. rewrite match_at_qu, without_q_cons.
      destruct (a =? chr "q")%N; [ | reflexivity ].
      now rewrite expand_text.
    - split; [ exact (IH1 b) | ]. intros a prev.
      rewrite sub_go_step. unfold p at 1.
      rewrite match_at_qu, without_q_cons.
      destruct (a =? chr "q")%N; [ | now rewrite IH1 ].
      destruct (b =? chr "u")%N; rewrite expand_text; f_equal.
      + rewrite sub_go_skip. apply IH0.
      + apply IH1. }
  intros prev. apply G.
Qed.

Lemma without_q_clean (r : str) (s : str) :
  mem (chr "q") r = false -> mem (chr "q") (without_q r s) = false.
Proof.
  intros Hr.
  assert (G : forall s,
             mem (chr "q") (without_q r s) = false
             /\ forall a, mem (chr "q") (without_q r (a :: s)) = false).
  { clear s. induction s as [ | b s [IH0 IH1] ].
    - split; [ reflexivity | ]. intros a. rewrite without_q_cons.
      destruct (a =? chr "q")%N eqn:E.
      + now rewrite app_nil_r.
      + now rewrite mem_single.
    - split; [ exact (IH1 b) | ]. intros a. rewrite without_q_cons.
      destruct (a =? chr "q")%N eqn:E.
      + rewrite mem_app, Hr. cbn [orb].
        destruct (b =? chr "u")%N; [ exact IH0 | exact (IH1 b) ].
      + change (a :: without_q r (b :: s))
          with ([a] ++ without_q r (b :: s)).
        now rewrite mem_app, mem_single, E, IH1. }
  apply G.
Qed.

Lemma mem_Forall (x : char) (s : str) :
  mem x s = false <-> Forall (fun c => mem c [x] = false) s.
Proof.
  induction s as [ | c s IH ]; [ split; [ constructor | reflexivity ] | ].
  change (mem x (c :: s)) with ((x =? c)%N || mem x s).
  rewrite orb_false_iff, IH. split.
  - intros [H1 H2]. constructor; [ | exact H2 ].
    now rewrite mem_single.
  - intros H. inversion H as [ | c' s' H1 H2 ]; subst.
    rewrite mem_single in H1. now split.
Qed.

(** X9.  [_collapse_expand] returns on every string, and what it returns has no
    "q" left. *)
Theorem collapse_expand_no_q (s : str) :
  exists out, _collapse_expand s = Ret out /\ mem (chr "q") out = false.
Proof.
  unfold _collapse_expand. cbn [re_subs sub].
  rewrite (re_sub_char "x" "ks" (chr "x")) by reflexivity. cbn [bind].
  rewrite (re_sub_parsed "qu?" "kv"
             (Regex false [One false (Chr (chr "q")); Opt (Chr (chr "u"))])
             (map TChr (ustr "kv"))) by reflexivity.
  rewrite sub_go_qu. cbn [bind].
  match goal with
  | |- context [ without_q ?r ?t ] =>
      pose proof (without_q_clean r t eq_refl) as Q
  end.
  apply mem_Forall in Q.
  destruct (re_subs_avoid [chr "q"]
              [sub "ch" "x"; sub "dz" "ʒ"; sub "dž" "ɮ"] eq_refl _ Q)
    as (out & E & F).
  cbn [re_subs sub] in E. rewrite E.
  exists out. split; [ reflexivity | now apply mem_Forall ].
Qed.

End Stages.

(** ** Words are kept apart *)

Section Words.
Context {U : Unicode} {L : UnicodeLaws U}.

Lemma word_cons_idempotent (k : list bool) :
  word_cons (word_cons k) = word_cons k.
Proof. destruct k as [ | [ | ] k ]; reflexivity. Qed.

Lemma skeleton_cons_nonspace (c : char) (s : str) :
  nonspace c -> skeleton (c :: s) = word_cons (skeleton s).
Proof. intros H. cbn [skeleton]. now rewrite H. Qed.

(** A non-empty run without spaces in front of [r] counts as one word. *)
Lemma skeleton_word (w r : str) :
  w <> [] -> Forall nonspace w ->
  skeleton (w ++ r) = word_cons (skeleton r).
Proof.
  induction w as [ | c w IH ]; [ congruence | ]. intros _ F.
  inversion F as [ | c' w' Hc Hw ]; subst.
  cbn [app]. rewrite (skeleton_cons_nonspace c _ Hc).
  destruct w as [ | d w ]; [ reflexivity | ].
  rewrite IH by (discriminate || assumption).
  apply word_cons_idempotent.
Qed.

Lemma spaceless_step (c : char) (s : str) (gs : list str) (n : nat) :
  nonspace c -> spaceless_match s (gs, n) -> spaceless_match (c :: s) (gs, S n).
Proof.
  intros Hc (H1 & H2 & H3). unfold spaceless_match.
  cbn [fst snd length firstn] in *.
  repeat split; [ lia | now constructor | exact H3 ].
Qed.

Lemma star_spaceless (k : cls) (m : str -> option (list str * nat)) :
  excludes_space k = true ->
  (forall s r, m s = Some r -> spaceless_match s r) ->
  forall s r, star k m s = Some r -> spaceless_match s r.
Proof.
  intros Hk Hm. induction s as [ | c s IH ]; intros r; cbn [star].
  - apply Hm.
  - destruct (in_cls k c) eqn:K; [ | apply Hm ].
    destruct (star k m s) as [ [gs n] | ] eqn:E; [ | apply Hm ].
    intros H. injection H as <-. apply spaceless_step; [ | now apply IH ].
    exact (excluded_not_space k c Hk K).
Qed.

(** A match of atoms that exclude the space covers no space. *)
Lemma match_atoms_spaceless (l : list atom) :
  forallb spaceless_atom l = true ->
  forall s r, match_atoms l s = Some r -> spaceless_match s r.
Proof.
  induction l as [ | a l IH ]; intros Hl s r.
  - intros H. injection H as <-. unfold spaceless_match. cbn.
    repeat split; [ lia | constructor | constructor ].
  - cbn [forallb] in Hl. apply andb_true_iff in Hl. destruct Hl as [Ha Hl].
    specialize (IH Hl).
    destruct a as [ capture k | k | k ]; cbn [spaceless_atom] in Ha;
      cbn [match_atoms].
    + destruct s as [ | c s ]; [ discriminate | ].
      destruct (in_cls k c) eqn:K; [ | discriminate ].
      destruct (match_atoms l s) as [ [gs n] | ] eqn:E; [ | discriminate ].
      intros H. injection H as <-.
      pose proof (excluded_not_space k c Ha K) as Hc.
      destruct (IH _ _ E) as (H1 & H2 & H3).
      unfold spaceless_match. cbn [fst snd length firstn] in *.
      repeat split; [ lia | now constructor | ].
      destruct capture; [ | exact H3 ].
      constructor; [ | exact H3 ]. now constructor.
    + destruct s as [ | c s ]; [ apply IH | ].
      destruct (in_cls k c) eqn:K; [ | apply IH ].
      destruct (match_atoms l s) as [ [gs n] | ] eqn:E; [ | apply IH ].
      intros H. injection H as <-. apply spaceless_step; [ | now apply IH ].
      exact (excluded_not_space k c Ha K).
    + destruct s as [ | c s ]; [ discriminate | ].
      destruct (in_cls k c) eqn:K; [ | discriminate ].
      destruct (star k (match_atoms l) s) as [ [gs n] | ] eqn:E;
        [ | discriminate ].
      intros H. injection H as <-. apply spaceless_step.
      * exact (excluded_not_space k c Ha K).
      * exact (star_spaceless k _ Ha IH _ _ E).
Qed.

Lemma spaceless_literals (t : template) :
  forallb spaceless_item t = true -> literals nonspace t.
Proof.
  intros H. rewrite forallb_forall in H. apply Forall_forall.
  intros [ c | n ] Hi; [ | exact I ].
  apply H in Hi. now apply negb_true_iff.
Qed.

Section Rule.
Variables (p : regex) (t : template).
Hypothesis Hh : headed p = true.
Hypothesis Hv : ends_visibly p t = true.
Hypothesis Hp : forallb spaceless_atom (atoms p) = true.
Hypothesis Ht : forallb spaceless_item t = true.

(** A substitution by such a rule rewrites words into words. *)
Lemma sub_go_skeleton (s : str) :
  forall prev k,
    k <= length s -> Forall nonspace (firstn k s) ->
    skeleton (sub_go p t prev k s) = skeleton (skipn k s).
Proof.
  induction s as [ | c s IH ]; intros prev k Hk F.
  - cbn [sub_go]. rewrite (headed_nil _ _ Hh).
    destruct k; reflexivity.
  - destruct k as [ | k ].
    + rewrite sub_go_step. cbn [skipn].
      destruct (match_at p prev (c :: s)) as [ [gs n] | ] eqn:M.
      * destruct (headed_match _ _ _ _ _ Hh M) as [n' ->].
        destruct (expand_visible _ _ _ _ _ _ Hv M) as (pre & x & E & _).
        apply match_at_atoms in M.
        destruct (match_atoms_spaceless _ Hp _ _ M) as (H1 & H2 & H3).
        cbn [fst snd length firstn] in H1, H2, H3.
        assert (Fe : Forall nonspace (expand t gs))
          by (apply expand_Forall;
              [ now apply spaceless_literals | exact H3 ]).
        rewrite skeleton_word; [ | rewrite E; now destruct pre | exact Fe ].
        rewrite IH; [ | lia | now inversion H2 ].
        rewrite <- (firstn_skipn n' s) at 2.
        change (c :: firstn n' s ++ skipn n' s)
          with ((c :: firstn n' s) ++ skipn n' s).
        rewrite skeleton_word by (discriminate || assumption).
        reflexivity.
      * cbn [skeleton].
        rewrite (IH (Some c) O) by (cbn; (lia || constructor)).
        reflexivity.
    + rewrite sub_go_skip. cbn [skipn]. cbn [length firstn] in Hk, F.
      apply IH; [ lia | now inversion F ].
Qed.

End Rule.

Lemma re_subs_skeleton (rules : list rule) :
  forallb wordwise_rule rules = true ->
  forall s, exists out, re_subs rules s = Ret out
                        /\ skeleton out = skeleton s.
Proof.
  induction rules as [ | [pattern repl] rules IH ]; intros H s.
  - exists s. split; reflexivity.
  - cbn [forallb] in H. apply andb_true_iff in H. destruct H as [H1 H2].
    unfold wordwise_rule in H1. cbn [fst snd] in H1.
    destruct (parse_regex (ustr pattern)) as [ p | ] eqn:P;
      [ | discriminate ].
    destruct (parse_template (ustr repl)) as [ t | ] eqn:T;
      [ | discriminate ].
    apply andb_true_iff in H1. destruct H1 as [H1 Ht].
    apply andb_true_iff in H1. destruct H1 as [H1 Hp].
    apply andb_true_iff in H1. destruct H1 as [H1 Hv].
    apply andb_true_iff in H1. destruct H1 as [Hok Hh].
    cbn [re_subs]. rewrite (re_sub_parsed _ _ _ _ s P T Hok). cbn [bind].
    destruct (IH H2 (sub_go p t None O s)) as (out & -> & E).
    exists out. split; [ reflexivity | ].
    rewrite E. apply (sub_go_skeleton p t Hh Hv Hp Ht s None O);
      cbn; (lia || constructor).
Qed.

End Words.

(** ** What a skeleton tells about a string *)

Lemma skeleton_head (c : char) (s : str) :
  hd false (skeleton (c :: s)) = (c =? space)%N.
Proof.
  cbn [skeleton]. destruct (c =? space)%N; [ reflexivity | ].
  destruct (skeleton s) as [ | [ | ] k ]; reflexivity.
Qed.

Lemma skeleton_count (s : str) : count_spaces s = sk_count (skeleton s).
Proof.
  unfold count_spaces, sk_count.
  induction s as [ | c s IH ]; [ reflexivity | ].
  cbn [filter skeleton]. destruct (c =? space)%N.
  - cbn [filter length]. now rewrite IH.
  - rewrite IH. destruct (skeleton s) as [ | [ | ] k ]; reflexivity.
Qed.

Lemma skeleton_starts (s : str) :
  starts_with_space s = sk_starts (skeleton s).
Proof.
  destruct s as [ | c s ]; [ reflexivity | ].
  unfold sk_starts. now rewrite skeleton_head.
Qed.

Lemma sk_single_word_cons (k : list bool) :
  sk_single (word_cons k) = sk_single k.
Proof. destruct k as [ | [ | ] k ]; reflexivity. Qed.

Lemma skeleton_single (s : str) :
  single_spaced s = sk_single (skeleton s).
Proof.
  induction s as [ | a s IH ]; [ reflexivity | ].
  cbn [single_spaced]. rewrite IH.
  destruct s as [ | b s ].
  - cbn [skeleton]. destruct (a =? space)%N; reflexivity.
  - change (skeleton (a :: b :: s))
      with (if (a =? space)%N then true :: skeleton (b :: s)
            else word_cons (skeleton (b :: s))).
    destruct (a =? space)%N.
    + cbn [sk_single andb]. now rewrite skeleton_head.
    + now rewrite sk_single_word_cons.
Qed.

Lemma skeleton_nonempty (c : char) (s : str) : skeleton (c :: s) <> [].
Proof.
  cbn [skeleton]. destruct (c =? space)%N; [ discriminate | ].
  destruct (skeleton s) as [ | [ | ] k ]; discriminate.
Qed.

Lemma last_word_cons (k : list bool) :
  k <> [] -> last (word_cons k) false = last k false.
Proof. destruct k as [ | [ | ] k ]; [ congruence | | ]; reflexivity. Qed.

Lemma skeleton_ends (s : str) : ends_with_space s = sk_ends (skeleton s).
Proof.
  unfold sk_ends. induction s as [ | a s IH ]; [ reflexivity | ].
  destruct s as [ | b s ].
  - cbn [ends_with_space skeleton]. destruct (a =? space)%N; reflexivity.
  - rewrite ends_with_space_cons, IH.
    pose proof (skeleton_nonempty b s) as Hne.
    change (skeleton (a :: b :: s))
      with (if (a =? space)%N then true :: skeleton (b :: s)
            else word_cons (skeleton (b :: s))).
    destruct (a =? space)%N.
    + destruct (skeleton (b :: s)); [ congruence | reflexivity ].
    + now rewrite last_word_cons.
Qed.

Lemma skeleton_ext (s out : str) :
  Forall2 (fun i o => (o =? space)%N = (i =? space)%N) s out ->
  skeleton out = skeleton s.
Proof.
  induction 1 as [ | i o s out E _ IH ]; [ reflexivity | ].
  cbn [skeleton]. now rewrite E, IH.
Qed.

Lemma assimilated_skeleton (s : str) : skeleton (assimilated s) = skeleton s.
Proof.
  apply skeleton_ext. induction s as [ | c s IH ]; cbn [assimilated];
    constructor; [ apply realise_space | exact IH ].
Qed.

Lemma bind_ret {A B : Type} (m : py A) (k : A -> py B) (b : B) :
  bind m k = Ret b -> exists a, m = Ret a /\ k a = Ret b.
Proof. destruct m as [ a | e ]; [ eauto | discriminate ]. Qed.

(** * The pipeline as a whole *)

Section Transcription.
Context {U : Unicode} {L : UnicodeLaws U}.

Lemma tidy_single_spaced (s : str) : tidy s = true -> single_spaced s = true.
Proof.
  induction s as [ | a s IH ]; [ reflexivity | ]. intros H.
  apply tidy_inv in H. destruct H as (_ & Hp & Ht).
  cbn [single_spaced]. rewrite (IH Ht), andb_true_r.
  destruct s as [ | b s ]; [ reflexivity | ].
  destruct (a =? space)%N eqn:A; [ | reflexivity ].
  apply N.eqb_eq in A. subst a. unfold tidy_pair in Hp.
  rewrite space_is_space in Hp. apply negb_true_iff in Hp.
  now rewrite (not_space b Hp).
Qed.

(** What [normalize] returns. *)
Lemma normalize_facts (s n : str) :
  normalize s = Ret n ->
  tidy n = true
  /\ strip n = n
  /\ starts_with_space n = false
  /\ ends_with_space n = false
  /\ Forall (fun c => casefold_char c = [c]) n.
Proof.
  rewrite normalize_closed. intros H. injection H as <-.
  set (v := tokens false (casefold s)).
  repeat split.
  - apply strip_tidy, tokens_tidy.
  - apply strip_idempotent.
  - unfold strip. pose proof (lstrip_head v) as H.
    destruct (rstrip (lstrip v)) as [ | x r ] eqn:R; [ reflexivity | ].
    destruct (rstrip_head _ _ _ R) as [r0 E]. rewrite E in H.
    cbn [starts_with_space]. now apply not_space.
  - apply rstrip_visible.
  - apply rstrip_Forall, lstrip_Forall, tokens_Forall;
      [ apply casefold_space | apply casefold_folded ].
Qed.

(** The stages a transcription went through. *)
Lemma transcribe_stages (ort fon : str) :
  _transcribe ort = Ret fon ->
  exists n s1 s2 s3 s4 s5 s6 s7 s8 s9,
    normalize ort = Ret n /\ _init_scp n = Ret s1 /\ _foreign s1 = Ret s2
    /\ _collapse_expand s2 = Ret s3 /\ _ě s3 = Ret s4 /\ _i_í s4 = Ret s5
    /\ _voicing_assim s5 = Ret s6 /\ _unify s6 = Ret s7
    /\ _hiatus s7 = Ret s8 /\ _heuristic s8 = Ret s9
    /\ _postprocess s9 = Ret fon.
Proof.
  unfold _transcribe. intros H.
  apply bind_ret in H. destruct H as (n & Hn & H).
  apply bind_ret in H. destruct H as (s1 & H1 & H).
  apply bind_ret in H. destruct H as (s2 & H2 & H).
  apply bind_ret in H. destruct H as (s3 & H3 & H).
  apply bind_ret in H. destruct H as (s4 & H4 & H).
  apply bind_ret in H. destruct H as (s5 & H5 & H).
  apply bind_ret in H. destruct H as (s6 & H6 & H).
  apply bind_ret in H. destruct H as (s7 & H7 & H).
  apply bind_ret in H. destruct H as (s8 & H8 & H).
  apply bind_ret in H. destruct H as (s9 & H9 & H).
  exists n, s1, s2, s3, s4, s5, s6, s7, s8, s9. repeat split; assumption.
Qed.

Ltac wordwise_stage :=
  intros; apply re_subs_skeleton; vm_compute; reflexivity.

Lemma init_scp_skeleton (s : str) :
  exists out, _init_scp s = Ret out /\ skeleton out = skeleton s.
Proof. wordwise_stage. Qed.

Lemma foreign_skeleton (s : str) :
  exists out, _foreign s = Ret out /\ skeleton out = skeleton s.
Proof. wordwise_stage. Qed.

Lemma collapse_expand_skeleton (s : str) :
  exists out, _collapse_expand s = Ret out /\ skeleton out = skeleton s.
Proof. wordwise_stage. Qed.

Lemma e_caron_skeleton (s : str) :
  exists out, _ě s = Ret out /\ skeleton out = skeleton s.
Proof. wordwise_stage. Qed.

Lemma i_acute_skeleton (s : str) :
  exists out, _i_í s = Ret out /\ skeleton out = skeleton s.
Proof. wordwise_stage. Qed.

Lemma unify_skeleton (s : str) :
  exists out, _unify s = Ret out /\ skeleton out = skeleton s.
Proof. wordwise_stage. Qed.

Lemma hiatus_skeleton (s : str) :
  exists out, _hiatus s = Ret out /\ skeleton out = skeleton s.
Proof. wordwise_stage. Qed.

Lemma heuristic_skeleton (s : str) :
  exists out, _heuristic s = Ret out /\ skeleton out = skeleton s.
Proof. wordwise_stage. Qed.

Lemma postprocess_skeleton (s : str) :
  exists out, _postprocess s = Ret out /\ skeleton out = skeleton s.
Proof. wordwise_stage. Qed.

(** X11.  Every rule stage rewrites inside words only: it returns a string with
    the same spaces between the same number of non-empty words. *)
Theorem rule_stages_keep_words :
  Forall (fun stage =>
            forall s, exists out,
              stage s = Ret out /\ skeleton out = skeleton s)
    [ _init_scp; _foreign; _collapse_expand; _ě; _i_í;
      _unify; _hiatus; _heuristic; _postprocess ].
Proof.
  repeat (apply Forall_cons || apply Forall_nil).
  - exact init_scp_skeleton.
  - exact foreign_skeleton.
  - exact collapse_expand_skeleton.
  - exact e_caron_skeleton.
  - exact i_acute_skeleton.
  - exact unify_skeleton.
  - exact hiatus_skeleton.
  - exact heuristic_skeleton.
  - exact postprocess_skeleton.
Qed.

Ltac same_skeleton H lemma :=
  match type of H with
  | ?stage ?s = Ret ?out =>
      let o := fresh in
      let E := fresh in
      let K := fresh "K" in
      destruct (lemma s) as (o & E & K);
      rewrite H in E; injection E as <-
  end.

Lemma transcribe_skeleton (ort n fon : str) :
  normalize ort = Ret n ->
  _transcribe ort = Ret fon ->
  skeleton fon = skeleton n.
Proof.
  intros Hn H. apply transcribe_stages in H.
  destruct H as (n' & s1 & s2 & s3 & s4 & s5 & s6 & s7 & s8 & s9 & Hn'
                 & H1 & H2 & H3 & H4 & H5 & H6 & H7 & H8 & H9 & H10).
  rewrite Hn in Hn'. injection Hn' as <-.
  same_skeleton H1 init_scp_skeleton.
  same_skeleton H2 foreign_skeleton.
  same_skeleton H3 collapse_expand_skeleton.
  same_skeleton H4 e_caron_skeleton.
  same_skeleton H5 i_acute_skeleton.
  apply voicing_assim_returns in H6. destruct H6 as [_ ->].
  same_skeleton H7 unify_skeleton.
  same_skeleton H8 hiatus_skeleton.
  same_skeleton H9 heuristic_skeleton.
  same_skeleton H10 postprocess_skeleton.
  rewrite assimilated_skeleton in *. congruence.
Qed.

(** X15.  The transcription keeps the words of the normalised text apart: it has
    as many spaces as the normalised text, never two in a row, and none at
    either end. *)
Theorem transcription_keeps_words (ort n fon : str) :
  normalize ort = Ret n ->
  _transcribe ort = Ret fon ->
  count_spaces fon = count_spaces n
  /\ single_spaced fon = true
  /\ starts_with_space fon = false
  /\ ends_with_space fon = false.
Proof.
  intros Hn H. pose proof (transcribe_skeleton _ _ _ Hn H) as E.
  destruct (normalize_facts _ _ Hn) as (T & _ & S1 & S2 & _).
  apply tidy_single_spaced in T.
  rewrite skeleton_count, skeleton_single, skeleton_starts, skeleton_ends, E.
  rewrite <- skeleton_count, <- skeleton_single, <- skeleton_starts,
    <- skeleton_ends.
  repeat split; assumption.
Qed.

End Transcription.

Lemma rule_stages_keep_words_witness :
  Forall (fun stage =>
            forall s, exists out,
              stage s = Ret out /\ skeleton out = skeleton s)
    [ @_init_scp latin; @_foreign latin; @_collapse_expand latin; @_ě latin;
      @_i_í latin; @_unify latin; @_hiatus latin; @_heuristic latin;
      @_postprocess latin ].
Proof. apply (@rule_stages_keep_words latin latin_laws). Defined.

Lemma transcription_keeps_words_witness :
  count_spaces (ustr "hříɣ bi za ti choutki stál leʒʒ dobře")
  = count_spaces (ustr "hřích by za ty choutky stál leč dobře")
  /\ single_spaced (ustr "hříɣ bi za ti choutki stál leʒʒ dobře") = true
  /\ starts_with_space (ustr "hříɣ bi za ti choutki stál leʒʒ dobře") = false
  /\ ends_with_space (ustr "hříɣ bi za ti choutki stál leʒʒ dobře") = false.
Proof.
  apply (@transcription_keeps_words latin latin_laws
           (ustr " Hřích  by za ty choutky stál leč dobře "));
    vm_compute; reflexivity.
Defined.

(** ** More on [normalize] *)

Section Normalized.
Context {U : Unicode} {L : UnicodeLaws U}.

Lemma tidy_whitespace (s : str) :
  tidy s = true -> Forall (fun c => isspace c = true -> c = space) s.
Proof.
  induction s as [ | a s IH ]; [ constructor | ]. intros H.
  apply tidy_inv in H. destruct H as (Ha & _ & Ht).
  constructor; [ exact Ha | exact (IH Ht) ].
Qed.

Lemma tidy_app_r (l1 l2 : str) : tidy (l1 ++ l2) = true -> tidy l2 = true.
Proof.
  induction l1 as [ | a l1 IH ]; [ auto | ]. intros H.
  apply IH. exact (tidy_tail _ _ H).
Qed.

(** X12.  What [normalize] returns is tokenised: its only whitespace is U+0020,
    never twice in a row and never at either end, and a word character and
    a non-word character stand side by side only if one of them is that
    space. *)
Theorem normalize_tokenised (s n : str) :
  normalize s = Ret n ->
  Forall (fun c => isspace c = true -> c = space) n
  /\ single_spaced n = true
  /\ starts_with_space n = false
  /\ ends_with_space n = false
  /\ (forall l1 a b l2,
         n = l1 ++ a :: b :: l2 -> isword a <> isword b ->
         a = space \/ b = space).
Proof.
  intros H. destruct (normalize_facts _ _ H) as (T & _ & S1 & S2 & _).
  repeat split; try assumption.
  - now apply tidy_whitespace.
  - now apply tidy_single_spaced.
  - intros l1 a b l2 -> W. apply tidy_app_r in T.
    apply tidy_inv in T. destruct T as (Ha & Hp & Tb).
    apply tidy_inv in Tb. destruct Tb as (Hb & _).
    unfold tidy_pair in Hp.
    destruct (isspace a) eqn:A; [ left; now apply Ha | ].
    destruct (isspace b) eqn:B; [ right; now apply Hb | ].
    exfalso. apply W. cbn [orb] in Hp. now apply Bool.eqb_prop.
Qed.

(** X13.  The strings [normalize] returns unchanged are the case-folded, tidy
    strings without whitespace at either end. *)
Theorem normalize_fixed_points (t : str) :
  normalize t = Ret t
  <-> Forall (fun c => casefold_char c = [c]) t
      /\ tidy t = true /\ strip t = t.
Proof.
  split.
  - intros H. destruct (normalize_facts _ _ H) as (T & S & _ & _ & F).
    repeat split; assumption.
  - intros (F & T & S). now apply normalize_normal.
Qed.

(** X14.  The pipeline does not tell a string from its normalisation: both are
    transcribed alike.  So case, repeated whitespace and whitespace at the
    ends of the input have no effect on the transcription. *)
Theorem transcribe_normalised (s n : str) :
  normalize s = Ret n -> _transcribe n = _transcribe s.
Proof.
  intros H. destruct (normalize_facts _ _ H) as (T & S & _ & _ & F).
  unfold _transcribe. rewrite H, (normalize_normal n F T S). reflexivity.
Qed.

End Normalized.

Lemma normalize_tokenised_witness :
  Forall (fun c => @isspace latin c = true -> c = space)
    (ustr "ahoj , světe !")
  /\ single_spaced (ustr "ahoj , světe !") = true
  /\ starts_with_space (ustr "ahoj , světe !") = false
  /\ ends_with_space (ustr "ahoj , světe !") = false
  /\ (forall l1 a b l2,
         ustr "ahoj , světe !" = l1 ++ a :: b :: l2 ->
         @isword latin a <> @isword latin b ->
         a = space \/ b = space).
Proof.
  apply (@normalize_tokenised latin latin_laws (ustr " Ahoj,  SVĚTE!")).
  vm_compute. reflexivity.
Defined.

Lemma transcribe_normalised_witness :
  @_transcribe latin (ustr "hrad byl")
  = @_transcribe latin (ustr "  HRAD   Byl ").
Proof.
  apply (@transcribe_normalised latin latin_laws). vm_compute. reflexivity.
Defined.

Lemma normalize_fixed_points_witness :
  @normalize latin (ustr "hrad byl") = Ret (ustr "hrad byl")
  <-> Forall (fun c => @casefold_char latin c = [c]) (ustr "hrad byl")
      /\ @tidy latin (ustr "hrad byl") = true
      /\ @strip latin (ustr "hrad byl") = ustr "hrad byl".
Proof. apply (@normalize_fixed_points latin latin_laws). Defined.

(** ** The alphabet of the transcription *)

Section OutputAlphabet.
Context {U : Unicode}.

Lemma free_of_app (b1 b2 : str) (s : str) :
  free_of b1 s -> free_of b2 s -> free_of (b1 ++ b2) s.
Proof.
  unfold free_of. intros H1 H2. rewrite Forall_forall in *.
  intros c Hc. now rewrite mem_app, (H1 c Hc), (H2 c Hc).
Qed.

Lemma free_of_map (f : char -> char) (b b' : str) (s : str) :
  (forall c, mem c b = false -> mem (f c) b' = false) ->
  free_of b s -> free_of b' (map f s).
Proof.
  intros Hf H. unfold free_of in *. induction H as [ | c s Hc _ IH ];
    cbn [map]; constructor; [ now apply Hf | exact IH ].
Qed.

Lemma re_subs_free (banned : str) (rules : list rule) (s out : str) :
  forallb (avoids banned) rules = true ->
  free_of banned s -> re_subs rules s = Ret out -> free_of banned out.
Proof.
  intros H F E. destruct (re_subs_avoid banned rules H s F) as (o & E' & F').
  rewrite E in E'. now injection E' as <-.
Qed.

Ltac keep_free F E :=
  refine (re_subs_free _ _ _ _ _ F E); vm_compute; reflexivity.

Lemma foreign_free (s out : str) :
  _foreign s = Ret out -> free_of (ustr "w") out.
Proof.
  unfold _foreign. cbn [re_subs sub].
  rewrite (re_sub_char "w" "v" (chr "w")) by reflexivity. cbn [bind].
  intros H. injection H as <-. apply mem_Forall.
  now apply flat_map_removed.
Qed.

Lemma collapse_expand_free (s out : str) :
  free_of (ustr "w") s ->
  _collapse_expand s = Ret out -> free_of (ustr "wq") out.
Proof.
  intros F E. apply (free_of_app (ustr "w") (ustr "q")).
  - keep_free F E.
  - unfold _collapse_expand in E. cbn [re_subs sub] in E.
    rewrite (re_sub_char "x" "ks" (chr "x")) in E by reflexivity.
    cbn [bind] in E.
    rewrite (re_sub_parsed "qu?" "kv"
               (Regex false [One false (Chr (chr "q")); Opt (Chr (chr "u"))])
               (map TChr (ustr "kv"))) in E by reflexivity.
    rewrite sub_go_qu in E. cbn [bind] in E.
    refine (re_subs_free (ustr "q")
              [sub "ch" "x"; sub "dz" "ʒ"; sub "dž" "ɮ"] _ _ _ _ E);
      [ vm_compute; reflexivity | ].
    apply mem_Forall. now apply without_q_clean.
Qed.

Lemma e_caron_free (s out : str) :
  free_of (ustr "wq") s -> _ě s = Ret out -> free_of (ustr "wqě") out.
Proof.
  intros F E. apply (free_of_app (ustr "wq") (ustr "ě")).
  - keep_free F E.
  - unfold _ě in E.
    change [sub "([bpfv])ě" "\1je"; sub "dě" "ďe"; sub "tě" "ťe";
            sub "ně" "ňe"; sub "mě" "mňe"; sub "ě" "je"]
      with ([sub "([bpfv])ě" "\1je"; sub "dě" "ďe"; sub "tě" "ťe";
             sub "ně" "ňe"; sub "mě" "mňe"] ++ [sub "ě" "je"]) in E.
    rewrite re_subs_app in E. apply bind_ret in E.
    destruct E as (s' & _ & E). cbn [re_subs sub] in E.
    rewrite (re_sub_char "ě" "je" (chr "ě")) in E by reflexivity.
    cbn [bind] in E. injection E as <-.
    apply mem_Forall. now apply flat_map_removed.
Qed.

Lemma dict_get_value (c v : char) (d : dict) :
  dict_get c d = Some v -> In v (map snd d).
Proof.
  induction d as [ | [k w] d IH ]; [ discriminate | ]. cbn [dict_get map snd].
  destruct (k =? c)%N.
  - intros H. injection H as ->. now left.
  - intros H. right. now apply IH.
Qed.

Lemma translate_free (banned : str) (table : dict) (c : char) :
  forallb (fun v => negb (mem v banned)) (map snd table) = true ->
  mem c banned = false -> mem (translate c table) banned = false.
Proof.
  intros H Hc. unfold translate.
  destruct (dict_get c table) as [ v | ] eqn:E; [ | exact Hc ].
  apply dict_get_value in E. rewrite forallb_forall in H.
  apply negb_true_iff. now apply H.
Qed.

Lemma assimilated_free (banned : str) (s : str) :
  forallb (fun v => negb (mem v banned)) (map snd _voiced2devoiced) = true ->
  forallb (fun v => negb (mem v banned)) (map snd _devoiced2voiced) = true ->
  free_of banned s -> free_of banned (assimilated s).
Proof.
  intros H1 H2 F. unfold free_of in *.
  induction F as [ | c s Hc _ IH ]; cbn [assimilated]; constructor;
    [ | exact IH ].
  destruct (realise_revoiced c (assimilated s)) as [ [ E | [ E | E ] ] | E ];
    rewrite E; auto using translate_free.
Qed.

Lemma unify_free (s out : str) :
  free_of (ustr "wqě") s -> _unify s = Ret out ->
  free_of (ustr "wqěůyý") out.
Proof.
  intros F E. apply (free_of_app (ustr "wqě") (ustr "ůyý")).
  - keep_free F E.
  - unfold _unify in E. cbn [re_subs sub] in E.
    rewrite (re_sub_char1 "ů" "ú" (chr "ů") (chr "ú")) in E by reflexivity.
    cbn [bind] in E.
    rewrite (re_sub_char1 "y" "i" (chr "y") (chr "i")) in E by reflexivity.
    cbn [bind] in E.
    rewrite (re_sub_char1 "ý" "í" (chr "ý") (chr "í")) in E by reflexivity.
    cbn [bind] in E. injection E as <-.
    rewrite !map_map. apply Forall_map, Forall_forall. intros c _.
    destruct (c =? chr "ů")%N eqn:E1; [ reflexivity | ].
    destruct (c =? chr "y")%N eqn:E2; [ reflexivity | ].
    destruct (c =? chr "ý")%N eqn:E3; [ reflexivity | ].
    change (mem c (ustr "ůyý"))
      with ((c =? chr "ů")%N || ((c =? chr "y")%N || ((c =? chr "ý")%N || false))).
    now rewrite E1, E2, E3.
Qed.

Lemma postprocess_free (s out : str) :
  free_of (ustr "wqěůyý") s -> _postprocess s = Ret out ->
  free_of (ustr "wqěůyýxɮ") out.
Proof.
  intros F E. apply (free_of_app (ustr "wqěůyý") (ustr "xɮ")).
  - keep_free F E.
  - apply postprocess_clean in E. unfold free_of.
    eapply Forall_impl; [ | exact E ]. intros c [H1 H2].
    change (mem c (ustr "xɮ"))
      with ((c =? chr "x")%N || ((c =? chr "ɮ")%N || false)).
    now rewrite H1, H2.
Qed.

(** X16.  Whatever the input, the transcription contains none of the graphemes
    "w", "q", "ě", "ů", "y", "ý", nor the internal symbols "x" and "ɮ". *)
Theorem transcription_alphabet (ort fon : str) :
  _transcribe ort = Ret fon -> free_of (ustr "wqěůyýxɮ") fon.
Proof.
  intros H. apply transcribe_stages in H.
  destruct H as (n & s1 & s2 & s3 & s4 & s5 & s6 & s7 & s8 & s9 & _
                 & _ & H2 & H3 & H4 & H5 & H6 & H7 & H8 & H9 & H10).
  apply foreign_free in H2.
  apply (collapse_expand_free _ _ H2) in H3.
  apply (e_caron_free _ _ H3) in H4.
  assert (H5' : free_of (ustr "wqě") s5) by keep_free H4 H5.
  apply voicing_assim_returns in H6. destruct H6 as [_ ->].
  pose proof (assimilated_free (ustr "wqě") s5 eq_refl eq_refl H5') as H6.
  apply (unify_free _ _ H6) in H7.
  assert (H8' : free_of (ustr "wqěůyý") s8) by keep_free H7 H8.
  assert (H9' : free_of (ustr "wqěůyý") s9) by keep_free H8' H9.
  exact (postprocess_free _ _ H9' H10).
Qed.

End OutputAlphabet.

Lemma transcription_alphabet_witness :
  free_of (ustr "wqěůyýxɮ") (ustr "kvis f taksíku").
Proof.
  apply (@transcription_alphabet latin (ustr "Quiz w taxíku")).
  vm_compute. reflexivity.
Defined.

(** ** [_i_í] *)

Section Palatalisation.
Context {U : Unicode}.

Lemma match_at_two (a b : char) (prev : option char) (c : char) (s : str) :
  match_at (Regex false [One false (Chr a); One false (Chr b)]) prev (c :: s)
  = match s with
    | d :: _ => if (c =? a)%N && (d =? b)%N then Some ([], 2) else None
    | [] => None
    end.
Proof.
  unfold match_at. cbn [word_boundary atoms andb match_atoms in_cls].
  destruct (c =? a)%N; destruct s as [ | d s ]; try reflexivity.
  cbn [andb]. destruct (d =? b)%N; reflexivity.
Qed.

Lemma look_cons (f : char -> option char -> char) (c : char) (s : str) :
  look f (c :: s) = f c (hd_error s) :: look f s.
Proof. reflexivity. Qed.

(** A rule that rewrites the first of two literal characters. *)
Lemma sub_go_soften (a b a' : char) (s : str) :
  (b =? a)%N = false ->
  forall prev,
    sub_go (Regex false [One false (Chr a); One false (Chr b)])
      [TChr a'; TChr b] prev O s
    = look (soften_before a b a') s.
Proof.
  intros Hab.
  set (p := Regex false [One false (Chr a); One false (Chr b)]).
  set (t := [TChr a'; TChr b]).
  assert (G : forall s,
             (forall prev, sub_go p t prev O s = look (soften_before a b a') s)
             /\ (forall c prev,
                    sub_go p t prev O (c :: s)
                    = look (soften_before a b a') (c :: s))).
  { clear s. induction s as [ | d s [IH0 IH1] ].
    - split; [ reflexivity | ]. intros c prev.
      rewrite sub_go_step. unfold p. rewrite match_at_two. reflexivity.
    - split; [ exact (IH1 d) | ]. intros c prev.
      rewrite sub_go_step. unfold p at 1. rewrite match_at_two.
      rewrite (look_cons _ c). cbn [hd_error soften_before].
      destruct ((c =? a)%N && (d =? b)%N) eqn:E.
      + apply andb_true_iff in E. destruct E as [_ D].
        apply N.eqb_eq in D. subst d.
        cbn [expand t app]. rewrite sub_go_skip, IH0.
        rewrite look_cons. do 2 f_equal.
        unfold soften_before. rewrite Hab.
        destruct (hd_error s); reflexivity.
      + rewrite IH1. reflexivity. }
  intros prev. apply G.
Qed.

(** Two passes in a row are one pass, when the second does not notice what
    the first does to the character it looks ahead at. *)
Lemma look_look (f g : char -> option char -> char) (s : str) :
  (forall x n m, g x (Some (f n m)) = g x (Some n)) ->
  look g (look f s) = look (fun c n => g (f c n) n) s.
Proof.
  intros H. induction s as [ | c s IH ]; [ reflexivity | ].
  rewrite (look_cons f), (look_cons g), look_cons, IH. f_equal.
  destruct s as [ | n s ]; [ reflexivity | ].
  rewrite look_cons. cbn [hd_error]. apply H.
Qed.

Lemma look_ext (f g : char -> option char -> char) (s : str) :
  (forall c n, f c n = g c n) -> look f s = look g s.
Proof.
  intros H. induction s as [ | c s IH ]; [ reflexivity | ].
  rewrite !look_cons, IH, H. reflexivity.
Qed.

Ltac by_cases :=
  repeat (cbn [andb orb]; cbv beta iota;
          match goal with
          | |- context [ (?x =? ?y)%N ] =>
              is_var x; destruct (N.eqb_spec x y); [ subst x | ]
          | |- context [ (?x =? ?y)%N ] =>
              let v := eval vm_compute in (x =? y)%N in
              match v with
              | true => change (x =? y)%N with true
              | false => change (x =? y)%N with false
              end
          end);
  try reflexivity; try (exfalso; congruence).

Lemma soften_keeps (a b a' b0 : char) :
  (a =? b0)%N = false -> (a' =? b0)%N = false ->
  keeps b0 (soften_before a b a').
Proof.
  intros Ha Ha' y k. unfold soften_before.
  destruct k as [ n | ]; [ | reflexivity ].
  destruct ((y =? a)%N && (n =? b)%N) eqn:E; [ | reflexivity ].
  apply andb_true_iff in E. destruct E as [E _].
  apply N.eqb_eq in E. subst y. now rewrite Ha, Ha'.
Qed.

Lemma compose_keeps (b : char) (f g : char -> option char -> char) :
  keeps b f -> keeps b g -> keeps b (fun c n => g (f c n) n).
Proof. intros Hf Hg y k. now rewrite Hg, Hf. Qed.

Lemma soften_after (a b a' : char) (f : char -> option char -> char) :
  keeps b f ->
  forall x n m,
    soften_before a b a' x (Some (f n m)) = soften_before a b a' x (Some n).
Proof. intros H x n m. unfold soften_before. now rewrite H. Qed.

Lemma palatalise_steps (c : char) (n : option char) :
  soften_before (chr "n") (chr "í") (chr "ň")
    (soften_before (chr "t") (chr "í") (chr "ť")
       (soften_before (chr "d") (chr "í") (chr "ď")
          (soften_before (chr "n") (chr "i") (chr "ň")
             (soften_before (chr "t") (chr "i") (chr "ť")
                (soften_before (chr "d") (chr "i") (chr "ď") c n) n) n) n) n)
    n
  = palatalise c n.
Proof.
  unfold soften_before, palatalise. destruct n as [ m | ]; [ | reflexivity ].
  by_cases.
Qed.

(** X10.  [_i_í] in closed form: it never raises, keeps the length, and replaces
    "d", "t", "n" by "ď", "ť", "ň" exactly where the next character of the
    input is "i" or "í". *)
Theorem i_acute_closed (s : str) : _i_í s = Ret (look palatalise s).
Proof.
  unfold _i_í. cbn [re_subs sub].
  rewrite (re_sub_parsed "di" "ďi"
             (Regex false [One false (Chr (chr "d")); One false (Chr (chr "i"))])
             [TChr (chr "ď"); TChr (chr "i")]) by reflexivity.
  rewrite sub_go_soften by reflexivity. cbn [bind].
  rewrite (re_sub_parsed "ti" "ťi"
             (Regex false [One false (Chr (chr "t")); One false (Chr (chr "i"))])
             [TChr (chr "ť"); TChr (chr "i")]) by reflexivity.
  rewrite sub_go_soften by reflexivity. cbn [bind].
  rewrite (re_sub_parsed "ni" "ňi"
             (Regex false [One false (Chr (chr "n")); One false (Chr (chr "i"))])
             [TChr (chr "ň"); TChr (chr "i")]) by reflexivity.
  rewrite sub_go_soften by reflexivity. cbn [bind].
  rewrite (re_sub_parsed "dí" "ďí"
             (Regex false [One false (Chr (chr "d")); One false (Chr (chr "í"))])
             [TChr (chr "ď"); TChr (chr "í")]) by reflexivity.
  rewrite sub_go_soften by reflexivity. cbn [bind].
  rewrite (re_sub_parsed "tí" "ťí"
             (Regex false [One false (Chr (chr "t")); One false (Chr (chr "í"))])
             [TChr (chr "ť"); TChr (chr "í")]) by reflexivity.
  rewrite sub_go_soften by reflexivity. cbn [bind].
  rewrite (re_sub_parsed "ní" "ňí"
             (Regex false [One false (Chr (chr "n")); One false (Chr (chr "í"))])
             [TChr (chr "ň"); TChr (chr "í")]) by reflexivity.
  rewrite sub_go_soften by reflexivity. cbn [bind].
  set (g1 := soften_before (chr "d") (chr "i") (chr "ď")).
  set (g2 := soften_before (chr "t") (chr "i") (chr "ť")).
  set (g3 := soften_before (chr "n") (chr "i") (chr "ň")).
  set (g4 := soften_before (chr "d") (chr "í") (chr "ď")).
  set (g5 := soften_before (chr "t") (chr "í") (chr "ť")).
  set (g6 := soften_before (chr "n") (chr "í") (chr "ň")).
  assert (K : forall b, b = chr "i" \/ b = chr "í" ->
                        keeps b g1 /\ keeps b g2 /\ keeps b g3
                        /\ keeps b g4 /\ keeps b g5 /\ keeps b g6).
  { intros b [ -> | -> ]; repeat split; apply soften_keeps; reflexivity. }
  destruct (K (chr "i") (or_introl eq_refl)) as (I1 & I2 & I3 & I4 & I5 & I6).
  destruct (K (chr "í") (or_intror eq_refl)) as (J1 & J2 & J3 & J4 & J5 & J6).
  rewrite (look_look g1 g2 _ (soften_after _ _ _ _ I1)).
  pose proof (compose_keeps _ _ _ I1 I2) as I12.
  pose proof (compose_keeps _ _ _ J1 J2) as J12.
  rewrite (look_look _ g3 _ (soften_after _ _ _ _ I12)).
  pose proof (compose_keeps _ _ _ J12 J3) as J123.
  rewrite (look_look _ g4 _ (soften_after _ _ _ _ J123)).
  pose proof (compose_keeps _ _ _ J123 J4) as J1234.
  rewrite (look_look _ g5 _ (soften_after _ _ _ _ J1234)).
  pose proof (compose_keeps _ _ _ J1234 J5) as J12345.
  rewrite (look_look _ g6 _ (soften_after _ _ _ _ J12345)).
  f_equal. apply look_ext. intros c n. apply palatalise_steps.
Qed.

End Palatalisation.

(** * The translation tables *)

Lemma dict_get_key (c v : char) (d : dict) :
  dict_get c d = Some v -> In c (map fst d).
Proof.
  induction d as [ | [k w] d IH ]; [ discriminate | ]. cbn [dict_get map fst].
  destruct (k =? c)%N eqn:E.
  - intros _. left. now apply N.eqb_eq.
  - intros H. right. now apply IH.
Qed.

Lemma translate_outside (c : char) (keys : str) (table : dict) :
  (forall k, In k (map fst table) -> mem k keys = true) ->
  mem c keys = false -> translate c table = c.
Proof.
  intros H Hc. unfold translate.
  destruct (dict_get c table) as [ v | ] eqn:E; [ | reflexivity ].
  apply dict_get_key, H in E. congruence.
Qed.

Lemma table_keys :
  (forall k, In k (map fst _voiced2devoiced) -> mem k _voiced = true)
  /\ (forall k, In k (map fst _devoiced2voiced) -> mem k _devoiced = true).
Proof.
  split; intros k H; vm_compute in H;
    repeat (destruct H as [ H | H ]; [ subst; reflexivity | ]);
    contradiction.
Qed.

(** X5.  The two symbol classes are disjoint, and each table changes the members
    of its own class only, into members of the other class: a character is
    either left alone by [_voiced2devoiced] or is voiced and becomes a
    devoiced one, and likewise for [_devoiced2voiced]. *)
Theorem translation_tables (c : char) :
  (translate c _voiced2devoiced = c
   \/ (mem c _voiced = true
       /\ mem (translate c _voiced2devoiced) _devoiced = true))
  /\ (translate c _devoiced2voiced = c
      \/ (mem c _devoiced = true
          /\ mem (translate c _devoiced2voiced) _voiced = true))
  /\ mem c _voiced && mem c _devoiced = false.
Proof.
  destruct table_keys as [K1 K2]. repeat split.
  - destruct (mem c _voiced) eqn:V.
    + right. split; [ reflexivity | apply (voiced_facts c V) ].
    + left. exact (translate_outside c _voiced _ K1 V).
  - destruct (mem c _devoiced) eqn:D.
    + right. split; [ reflexivity | apply (devoiced_voices c D) ].
    + left. exact (translate_outside c _devoiced _ K2 D).
  - destruct (mem c _voiced) eqn:V; [ | reflexivity ].
    apply (voiced_facts c V).
Qed.
